(** * Blutfehde: the simulation core of the worms game

    A shallow embedding of the game logic of [components/WormsGame.tsx]
    ([getTerrainHeightAt], [deformTerrain], the input block of [animate],
    [handleExplosion], [nextTurn]) together with [constants.ts] and
    [types.ts], and the properties of the turn manager, the terrain field
    and the combat resolver.

    Numbers.  A JavaScript [number] is modelled by [number]: a real, one of
    the two infinities, or NaN.  Arithmetic on finite values is exact real
    arithmetic and zero is unsigned; the special values follow IEEE-754, so
    that [0 / 0] is [NaN] and [x / 0] is an infinity.

    Rounding.  The terrain lookup and the crater depend on the rounding of
    binary64 (the floor of a computed index) and of the [Float32Array] that
    stores the heights.  [getTerrainHeightAtFl] and [deformTerrainFl] are
    these functions with every operation rounded, and what is proved of the
    lookup and of the crater shape is proved of them, for every rounding
    within the error bounds of the format; [getTerrainHeightAt] and
    [deformTerrain] are their instances without rounding. *)

From Stdlib Require Import Reals Lra Lia ZArith List Bool String Zfloor.
Import ListNotations.

Open Scope R_scope.

(** ** constants.ts *)

Definition TERRAIN_WIDTH : R := 200.
Definition TERRAIN_SEGMENTS : Z := 200.
Definition WATER_LEVEL : R := -10.
Definition MAX_POWER : R := 30.

(** ** JavaScript numbers *)

Module JS.

Inductive number : Type :=
| Fin (r : R)
| PInf
| NInf
| NaN.

(** The infinity that carries the sign of [r]; NaN when [r] is zero. *)
Definition signedInf (r : R) : number :=
  if Rlt_dec 0 r then PInf else if Rlt_dec r 0 then NInf else NaN.

Definition neg (a : number) : number :=
  match a with
  | Fin r => Fin (- r)
  | PInf => NInf
  | NInf => PInf
  | NaN => NaN
  end.

Definition add (a b : number) : number :=
  match a, b with
  | Fin x, Fin y => Fin (x + y)
  | NaN, _ | _, NaN => NaN
  | PInf, NInf | NInf, PInf => NaN
  | PInf, _ | _, PInf => PInf
  | NInf, _ | _, NInf => NInf
  end.

Definition sub (a b : number) : number := add a (neg b).

Definition mul (a b : number) : number :=
  match a, b with
  | Fin x, Fin y => Fin (x * y)
  | NaN, _ | _, NaN => NaN
  | Fin x, PInf | PInf, Fin x => signedInf x
  | Fin x, NInf | NInf, Fin x => signedInf (- x)
  | PInf, PInf | NInf, NInf => PInf
  | PInf, NInf | NInf, PInf => NInf
  end.

(** [a / b].  A finite value over zero is an infinity of its sign and
    [0 / 0] is NaN. *)
Definition div (a b : number) : number :=
  match a, b with
  | Fin x, Fin y => if Req_dec_T y 0 then signedInf x else Fin (x / y)
  | NaN, _ | _, NaN => NaN
  | Fin _, _ => Fin 0
  | PInf, Fin y => if Rlt_dec y 0 then NInf else PInf
  | NInf, Fin y => if Rlt_dec y 0 then PInf else NInf
  | _, _ => NaN
  end.

(** [Math.sqrt] *)
Definition sqrt (a : number) : number :=
  match a with
  | Fin r => if Rlt_dec r 0 then NaN else Fin (R_sqrt.sqrt r)
  | PInf => PInf
  | NInf | NaN => NaN
  end.

(** [Math.floor] *)
Definition floor (a : number) : number :=
  match a with
  | Fin r => Fin (IZR (Zfloor r))
  | _ => a
  end.

(** [a < b]; every comparison with NaN is false. *)
Definition lt (a b : number) : bool :=
  match a, b with
  | Fin x, Fin y => if Rlt_dec x y then true else false
  | NaN, _ | _, NaN => false
  | _, NInf => false
  | NInf, _ => true
  | PInf, _ => false
  | Fin _, PInf => true
  end.

(** [a <= b] *)
Definition le (a b : number) : bool :=
  match a, b with
  | Fin x, Fin y => if Rle_dec x y then true else false
  | NaN, _ | _, NaN => false
  | NInf, _ => true
  | _, PInf => true
  | _, NInf => false
  | PInf, _ => false
  end.

End JS.

Import JS.

(** ** types.ts *)

Inductive GameState : Type :=
| WAITING_FOR_INPUT
| CHARGING
| FIRING
| PROJECTILE_FLYING
| EXPLOSION
| GAME_OVER.

Module Position.
Record t : Type := mk {
  x : number;
  y : number;
  z : number
}.
End Position.

Record Worm : Type := mkWorm {
  id : nat;
  teamId : nat;
  name : string;
  hp : number;
  position : Position.t;
  rotation : number;
  aimAngle : number;
  isDead : bool
}.

(** Field assignments [w.hp = v], [w.position.x = v], [w.rotation = v] and
    [w.isDead = true]. *)
Definition setHp (w : Worm) (v : number) : Worm :=
  mkWorm (id w) (teamId w) (name w) v (position w) (rotation w) (aimAngle w)
    (isDead w).

Definition setX (w : Worm) (v : number) : Worm :=
  mkWorm (id w) (teamId w) (name w) (hp w)
    (Position.mk v (Position.y (position w)) (Position.z (position w)))
    (rotation w) (aimAngle w) (isDead w).

Definition setRotation (w : Worm) (v : number) : Worm :=
  mkWorm (id w) (teamId w) (name w) (hp w) (position w) v (aimAngle w)
    (isDead w).

Definition markDead (w : Worm) : Worm :=
  mkWorm (id w) (teamId w) (name w) (hp w) (position w) (rotation w)
    (aimAngle w) true.

(** The roster the component starts with (WormsGame.tsx, lines 29-34). *)
Definition initialWorms : list Worm :=
  [ mkWorm 1 1 "Hans" (Fin 100) (Position.mk (Fin (-40)) (Fin 0) (Fin 0))
      (Fin 0) (Fin (5/10)) false;
    mkWorm 2 2 "Fritz" (Fin 100) (Position.mk (Fin 40) (Fin 0) (Fin 0))
      (Fin PI) (Fin (5/10)) false;
    mkWorm 3 1 "Greta" (Fin 100) (Position.mk (Fin (-20)) (Fin 0) (Fin 0))
      (Fin 0) (Fin (8/10)) false;
    mkWorm 4 2 "Otto" (Fin 100) (Position.mk (Fin 20) (Fin 0) (Fin 0))
      (Fin PI) (Fin (8/10)) false ].

(** The same roster once both worms of team 1 are down to 0 HP and marked
    dead, team 2 untouched. *)
Definition team1Down : list Worm :=
  [ mkWorm 1 1 "Hans" (Fin 0) (Position.mk (Fin (-40)) (Fin 0) (Fin 0))
      (Fin 0) (Fin (5/10)) true;
    mkWorm 2 2 "Fritz" (Fin 100) (Position.mk (Fin 40) (Fin 0) (Fin 0))
      (Fin PI) (Fin (5/10)) false;
    mkWorm 3 1 "Greta" (Fin 0) (Position.mk (Fin (-20)) (Fin 0) (Fin 0))
      (Fin 0) (Fin (8/10)) true;
    mkWorm 4 2 "Otto" (Fin 100) (Position.mk (Fin 20) (Fin 0) (Fin 0))
      (Fin PI) (Fin (8/10)) false ].

(** [a[i] = v] on an array of fixed length: a write past the end is
    dropped. *)
Fixpoint setNth {A : Type} (i : nat) (v : A) (a : list A) : list A :=
  match a, i with
  | [], _ => []
  | _ :: rest, O => v :: rest
  | e :: rest, S i' => e :: setNth i' v rest
  end.

(** ** The turn manager: [nextTurn] *)

(** What one call of [nextTurn] asks React to do: either
    [setGameState(GAME_OVER)], or [setCurrentTurnIndex(nextIndex)],
    [setWind(newWind)] and [setTimeLeft(30)]. *)
Inductive TurnOutcome : Type :=
| GameOver
| Advance (nextIndex : nat) (newWind : R) (timeLeft : Z).

(** The [while] loop of [nextTurn] (lines 521-524).  It returns the final
    [nextIndex] and [attempts], or [None] when reading [.isDead] of
    [gd.worms[nextIndex]] throws because that element is undefined.
    [budget] is [gd.worms.length - attempts]: the test
    [attempts < gd.worms.length] of the source is [budget <> 0], which makes
    the recursion structural. *)
Fixpoint skipDead (worms : list Worm) (budget nextIndex attempts : nat)
  : option (nat * nat) :=
  match nth_error worms nextIndex with
  | None => None
  | Some w =>
      if isDead w then
        match budget with
        | S budget' =>
            skipDead worms budget'
              ((nextIndex + 1) mod List.length worms) (S attempts)
        | O => Some (nextIndex, attempts)
        end
      else Some (nextIndex, attempts)
  end.

(** [nextTurn] (lines 516-540).  [rnd] is the value [Math.random()] returns.
    On an empty roster [(currentWormIndex + 1) % 0] is NaN, [gd.worms[NaN]]
    is undefined and the loop test throws: the result is [None] (here
    [nth_error] finds nothing in the empty list). *)
Definition nextTurn (rnd : R) (worms : list Worm) (currentWormIndex : nat)
  : option TurnOutcome :=
  let nextIndex := (currentWormIndex + 1) mod List.length worms in
  match skipDead worms (List.length worms) nextIndex 0 with
  | None => None
  | Some (nextIndex, attempts) =>
      if (List.length worms <=? attempts)%nat then Some GameOver
      else
        let newWind := (rnd * 2 - 1) * (5/10) in
        Some (Advance nextIndex newWind 30)
  end.

(** The worm at index [j] of [worms] exists and is dead. *)
Definition deadAt (worms : list Worm) (j : nat) : Prop :=
  exists w, nth_error worms j = Some w /\ isDead w = true.

(** The worm at index [j] of [worms] exists and is alive. *)
Definition liveAt (worms : list Worm) (j : nat) : Prop :=
  exists w, nth_error worms j = Some w /\ isDead w = false.

(** ** The terrain field *)

(** World x of the sample with index [i] (line 285). *)
Definition worldX (i : Z) : R :=
  (IZR i / IZR TERRAIN_SEGMENTS) * TERRAIN_WIDTH - (TERRAIN_WIDTH / 2).

(** [getTerrainHeightAt] (lines 266-272) on the height samples [heights]
    ([gameData.current.terrainHeights]).  [None] is the [undefined] a read
    past the end of the typed array gives. *)
Definition getTerrainHeightAt (heights : list R) (x : R) : option R :=
  let i :=
    Zfloor (((x + TERRAIN_WIDTH / 2) / TERRAIN_WIDTH)
            * IZR TERRAIN_SEGMENTS) in
  if (i <? 0)%Z then nth_error heights 0
  else if (TERRAIN_SEGMENTS <? i)%Z then
    nth_error heights (Z.to_nat TERRAIN_SEGMENTS)
  else nth_error heights (Z.to_nat i).

(** The body of the [for] loop of [deformTerrain] (lines 283-309) at index
    [i].  Only the logical height map is kept; the mirror writes into the
    mesh ([pos.setY]) are the renderer's.  A read past the typed array is
    [undefined], which makes [newY] NaN and the write a no-op. *)
Definition carve (x radius : R) (heights : list R) (i : Z) : list R :=
  if ((0 <=? i) && (i <=? TERRAIN_SEGMENTS))%Z then
    let worldX :=
      (IZR i / IZR TERRAIN_SEGMENTS) * TERRAIN_WIDTH - (TERRAIN_WIDTH / 2) in
    let dist := Rabs (worldX - x) in
    if Rlt_dec dist radius then
      let depth := R_sqrt.sqrt (radius * radius - dist * dist) in
      match nth_error heights (Z.to_nat i) with
      | Some currentY =>
          let newY := currentY - depth in
          setNth (Z.to_nat i) newY heights
      | None => heights
      end
    else heights
  else heights.

(** What the loop body does to the height [h] of sample [j]: lower it by
    the crater depth when the sample lies closer than [radius] to [x]. *)
Definition carved (x radius : R) (j : nat) (h : R) : R :=
  let dist := Rabs (worldX (Z.of_nat j) - x) in
  if Rlt_dec dist radius then
    h - R_sqrt.sqrt (radius * radius - dist * dist)
  else h.

(** The indices [lo, lo + 1, ..., hi] a [for (i = lo; i <= hi; i++)] loop
    visits. *)
Definition indexRange (lo hi : Z) : list Z :=
  map (fun k => (lo + Z.of_nat k)%Z) (seq 0 (Z.to_nat (hi - lo + 1))).

(** [deformTerrain] (lines 274-313) for a finite centre and radius.
    [threeRefs] tells whether [threeRefs.current] is set: the function
    returns at once when it is not. *)
Definition deformTerrain (threeRefs : bool) (heights : list R)
  (x radius : R) : list R :=
  if negb threeRefs then heights
  else
    let centerIndex :=
      Zfloor (((x + TERRAIN_WIDTH / 2) / TERRAIN_WIDTH)
              * IZR TERRAIN_SEGMENTS) in
    let radiusIndices :=
      Zfloor ((radius / TERRAIN_WIDTH) * IZR TERRAIN_SEGMENTS * 2) in
    fold_left (carve x radius)
      (indexRange (centerIndex - radiusIndices) (centerIndex + radiusIndices))
      heights.

(** A flat field of [TERRAIN_SEGMENTS + 1] samples, all at height [h]. *)
Definition flatTerrain (h : R) : list R :=
  repeat h (S (Z.to_nat TERRAIN_SEGMENTS)).

(** A field that rises by one from each sample to the next: sample [i] is
    at height [i]. *)
Definition rampTerrain : list R :=
  map (fun k => IZR (Z.of_nat k)) (seq 0 (S (Z.to_nat TERRAIN_SEGMENTS))).

(** Sample [i] is a stored sample nearest to world coordinate [x]. *)
Definition nearestSample (x : R) (i : Z) : Prop :=
  (0 <= i <= TERRAIN_SEGMENTS)%Z
  /\ forall k, (0 <= k <= TERRAIN_SEGMENTS)%Z ->
               Rabs (worldX i - x) <= Rabs (worldX k - x).

(** A sequence of [deformTerrain] calls, each with its centre and radius. *)
Definition deformAll (threeRefs : bool) (heights : list R)
  (calls : list (R * R)) : list R :=
  fold_left (fun h c => deformTerrain threeRefs h (fst c) (snd c))
    calls heights.

(** ** The combat resolver: [handleExplosion] *)

Definition explosionRadius : R := 8.
Definition maxDamage : R := 40.

(** The callback [handleExplosion] maps over [gd.worms] (lines 498-511),
    for the impact point [(x, y)]. *)
Definition damageWorm (x y : R) (w : Worm) : Worm :=
  let dx := sub (Position.x (position w)) (Fin x) in
  let dy := sub (Position.y (position w)) (Fin y) in
  let dist := JS.sqrt (add (mul dx dx) (mul dy dy)) in
  let w :=
    if lt dist (Fin explosionRadius) then
      let dmg :=
        floor (mul (Fin maxDamage)
                 (sub (Fin 1) (div dist (Fin explosionRadius)))) in
      let w := setHp w (sub (hp w) dmg) in
      let knockbackForce := mul (sub (Fin explosionRadius) dist) (Fin (5/10)) in
      setX w (add (Position.x (position w)) (mul (div dx dist) knockbackForce))
    else w in
  if le (hp w) (Fin 0) then markDead w else w.

(** The match state the simulation works on: the mutable [gameData] ref
    (worms, current worm, projectile flag, terrain heights), whether the
    scene refs are set, and the React [gameState]. *)
Record Game : Type := mkGame {
  worms : list Worm;
  currentWormIndex : nat;
  projectileActive : bool;
  terrainHeights : list R;
  threeRefs : bool;
  gameState : GameState
}.

(** [handleExplosion] (lines 477-514); the explosion mesh is the
    renderer's. *)
Definition handleExplosion (g : Game) (x y : R) : Game :=
  mkGame (map (damageWorm x y) (worms g))
    (currentWormIndex g)
    false
    (deformTerrain (threeRefs g) (terrainHeights g) x 6)
    (threeRefs g)
    EXPLOSION.

(** A sequence of impacts, resolved one after the other. *)
Definition explosions (g : Game) (impacts : list (R * R)) : Game :=
  fold_left (fun g p => handleExplosion g (fst p) (snd p)) impacts g.

(** One worm under a sequence of impacts. *)
Definition hits (impacts : list (R * R)) (w : Worm) : Worm :=
  fold_left (fun w p => damageWorm (fst p) (snd p) w) impacts w.

(** The damage the callback takes off the health of a worm at planar
    distance [dist] from the impact: nothing from [explosionRadius] on. *)
Definition blastDamage (dist : R) : R :=
  if Rlt_dec dist explosionRadius then
    IZR (Zfloor (maxDamage * (1 - dist / explosionRadius)))
  else 0.

(** The match at its start, on a flat field at height 0, scene set up. *)
Definition flatGame : Game :=
  mkGame initialWorms 0 false (flatTerrain 0) true WAITING_FOR_INPUT.

(** Hans once dead, at 0 HP, still standing at his starting place. *)
Definition deadHans : Worm :=
  mkWorm 1 1 "Hans" (Fin 0) (Position.mk (Fin (-40)) (Fin 0) (Fin 0))
    (Fin 0) (Fin (5/10)) true.

(** Fritz after walking right to a tenth of a unit from the edge of the
    map. *)
Definition fritzAtEdge : Worm :=
  mkWorm 2 2 "Fritz" (Fin 100) (Position.mk (Fin (999/10)) (Fin 0) (Fin 0))
    (Fin 0) (Fin (5/10)) false.

(** [v] is a finite position inside the playable width. *)
Definition insideWidth (v : number) : Prop :=
  exists r, v = Fin r /\ - TERRAIN_WIDTH / 2 <= r <= TERRAIN_WIDTH / 2.

(** ** Horizontal movement in [animate] *)

Record Keys : Type := mkKeys {
  ArrowLeft : bool;
  ArrowRight : bool;
  ArrowUp : bool;
  ArrowDown : bool;
  Space : bool
}.

Definition moveSpeed : R := 1/10.

(** Lines 327-337: the two movement keys, each with its clamp. *)
Definition moveWorm (keys : Keys) (w : Worm) : Worm :=
  let w :=
    if ArrowLeft keys then
      let w := setX w (sub (Position.x (position w)) (Fin moveSpeed)) in
      let w := setRotation w (Fin PI) in
      if lt (Position.x (position w)) (Fin (- TERRAIN_WIDTH / 2))
      then setX w (Fin (- TERRAIN_WIDTH / 2)) else w
    else w in
  if ArrowRight keys then
    let w := setX w (add (Position.x (position w)) (Fin moveSpeed)) in
    let w := setRotation w (Fin 0) in
    if lt (Fin (TERRAIN_WIDTH / 2)) (Position.x (position w))
    then setX w (Fin (TERRAIN_WIDTH / 2)) else w
  else w.

(** The input block of [animate] (lines 323-337) as far as it moves the
    active worm: it runs only while waiting for input or charging, and only
    for an active worm that exists and is not dead.  The aim keys, the
    re-snap of [position.y] and the charging of the same block leave
    [position.x] alone and are not part of this embedding. *)
Definition animateMove (keys : Keys) (g : Game) : Game :=
  match gameState g with
  | WAITING_FOR_INPUT | CHARGING =>
      match nth_error (worms g) (currentWormIndex g) with
      | Some activeWormData =>
          if isDead activeWormData then g
          else
            mkGame
              (setNth (currentWormIndex g) (moveWorm keys activeWormData)
                 (worms g))
              (currentWormIndex g) (projectileActive g) (terrainHeights g)
              (threeRefs g) (gameState g)
      | None => g
      end
  | _ => g
  end.

(** ** The rest of the input block of [animate] *)

(** [Math.cos], [Math.sin] and [===] on numbers. *)
Module Math.

Definition cos (a : number) : number :=
  match a with
  | Fin r => Fin (Rtrigo_def.cos r)
  | _ => NaN
  end.

Definition sin (a : number) : number :=
  match a with
  | Fin r => Fin (Rtrigo_def.sin r)
  | _ => NaN
  end.

Definition strictEq (a b : number) : bool :=
  match a, b with
  | Fin x, Fin y => if Req_dec_T x y then true else false
  | PInf, PInf | NInf, NInf => true
  | _, _ => false
  end.

End Math.

(** Field assignments [w.position.y = v] and [w.aimAngle = v]. *)
Definition setY (w : Worm) (v : number) : Worm :=
  mkWorm (id w) (teamId w) (name w) (hp w)
    (Position.mk (Position.x (position w)) v (Position.z (position w)))
    (rotation w) (aimAngle w) (isDead w).

Definition setAim (w : Worm) (v : number) : Worm :=
  mkWorm (id w) (teamId w) (name w) (hp w) (position w) (rotation w) v
    (isDead w).

(** Lines 340-347: the two aim keys, each with its clamp. *)
Definition aimWorm (keys : Keys) (w : Worm) : Worm :=
  let w :=
    if ArrowUp keys then
      let w := setAim w (add (aimAngle w) (Fin (2/100))) in
      if lt (Fin (PI / (15/10))) (aimAngle w)
      then setAim w (Fin (PI / (15/10))) else w
    else w in
  if ArrowDown keys then
    let w := setAim w (sub (aimAngle w) (Fin (2/100))) in
    if lt (aimAngle w) (Fin (- PI / 2)) then setAim w (Fin (- PI / 2)) else w
  else w.

(** [getTerrainHeightAt] (lines 266-272) on any number, as the callers of
    the game loop use it: the argument is a worm's or the projectile's x,
    which may be NaN.  The index [i] is a [Math.floor] result, so a finite
    [i] is an integer; [heights[NaN]] is [undefined] ([None]). *)
Definition getTerrainHeightAtNumber (heights : list R) (x : number)
  : option R :=
  let i :=
    floor (mul (div (add x (Fin (TERRAIN_WIDTH / 2))) (Fin TERRAIN_WIDTH))
             (Fin (IZR TERRAIN_SEGMENTS))) in
  if lt i (Fin 0) then nth_error heights 0
  else if lt (Fin (IZR TERRAIN_SEGMENTS)) i then
    nth_error heights (Z.to_nat TERRAIN_SEGMENTS)
  else
    match i with
    | Fin r => nth_error heights (Z.to_nat (Zfloor r))
    | _ => None
    end.

(** An [undefined] stored where a number is expected: every arithmetic or
    comparison that reads it later sees NaN. *)
Definition orNaN (v : option R) : number :=
  match v with
  | Some h => Fin h
  | None => NaN
  end.

(** Line 350: snap y to the terrain. *)
Definition snapToTerrain (heights : list R) (w : Worm) : Worm :=
  setY w (orNaN (getTerrainHeightAtNumber heights (Position.x (position w)))).

(** Lines 327-350: what the input block does to the active worm: move,
    aim, snap. *)
Definition inputWorm (keys : Keys) (heights : list R) (w : Worm) : Worm :=
  snapToTerrain heights (aimWorm keys (moveWorm keys w)).

(** The charging flags of [gameData]. *)
Record Charge : Type := mkCharge {
  charging : bool;
  chargeStartTime : R
}.

(** What the charging part of the input block asks for: a power to show
    (with [setGameState(CHARGING)] when the charge starts on this frame), a
    shot with its final power, or nothing. *)
Inductive ChargeEffect : Type :=
| Charged (startedNow : bool) (currentPower : R)
| Fired (finalPower : R)
| NoEffect.

(** Lines 368-382, on the frame with timestamp [time] and the state
    [space] of the space key. *)
Definition chargeBlock (time : R) (space : bool) (c : Charge)
  : Charge * ChargeEffect :=
  if space then
    let c' := if charging c then c else mkCharge true time in
    let chargeDuration := time - chargeStartTime c' in
    let currentPower := Rmin ((chargeDuration / 1000) * 20) MAX_POWER in
    (c', Charged (negb (charging c)) currentPower)
  else if charging c then
    let finalPower :=
      Rmin (((time - chargeStartTime c) / 1000) * 20) MAX_POWER in
    (mkCharge false (chargeStartTime c), Fired finalPower)
  else (c, NoEffect).

(** The space key held down over the frames [times]. *)
Definition holdSpace (times : list R) (c : Charge) : Charge :=
  fold_left (fun c t => fst (chargeBlock t true c)) times c.

(** ** The projectile *)

Module Projectile.
Record t : Type := mk {
  position : Position.t;
  velocity : Position.t;
  active : bool
}.
End Projectile.

(** The projectile [fireProjectile] launches for the worm [w] (lines
    455-468). *)
Definition launch (powerLvl : R) (w : Worm) : Projectile.t :=
  let angle := aimAngle w in
  let shotDirX :=
    if Math.strictEq (rotation w) (Fin 0) then Math.cos angle
    else neg (Math.cos angle) in
  let shotDirY := Math.sin angle in
  Projectile.mk
    (Position.mk (Position.x (position w))
       (add (Position.y (position w)) (Fin 2)) (Fin 0))
    (Position.mk (mul shotDirX (Fin powerLvl)) (mul shotDirY (Fin powerLvl))
       (Fin 0))
    true.

(** [fireProjectile] (lines 448-475) as far as the projectile goes: nothing
    happens when there is no current worm. *)
Definition fireProjectile (powerLvl : R) (g : Game) (p : Projectile.t)
  : Projectile.t :=
  match nth_error (worms g) (currentWormIndex g) with
  | None => p
  | Some w => launch powerLvl w
  end.

Definition dt : R := 16/1000.

(** Lines 390-395: one step of gravity and wind, velocity first, position
    after. *)
Definition integrate (wind : R) (p : Projectile.t) : Projectile.t :=
  let vy := sub (Position.y (Projectile.velocity p)) (Fin (98/10 * dt)) in
  let vx := add (Position.x (Projectile.velocity p)) (Fin (wind * dt)) in
  let px :=
    add (Position.x (Projectile.position p)) (mul (mul vx (Fin dt)) (Fin 5)) in
  let py :=
    add (Position.y (Projectile.position p)) (mul (mul vy (Fin dt)) (Fin 5)) in
  Projectile.mk
    (Position.mk px py (Position.z (Projectile.position p)))
    (Position.mk vx vy (Position.z (Projectile.velocity p)))
    (Projectile.active p).

(** Lines 404-405: the collision test that calls [handleExplosion]. *)
Definition hitsGround (heights : list R) (p : Projectile.t) : bool :=
  let groundH :=
    orNaN (getTerrainHeightAtNumber heights
             (Position.x (Projectile.position p))) in
  le (Position.y (Projectile.position p)) groundH
  || lt (Position.y (Projectile.position p)) (Fin WATER_LEVEL).

(** Line 410: the bounds test that ends the turn without an explosion. *)
Definition outOfBounds (p : Projectile.t) : bool :=
  lt (Position.x (Projectile.position p)) (Fin (- TERRAIN_WIDTH / 2 - 10))
  || lt (Fin (TERRAIN_WIDTH / 2 + 10)) (Position.x (Projectile.position p)).

(** The projectile after [steps] frames of flight. *)
Fixpoint flight (wind : R) (steps : nat) (p : Projectile.t) : Projectile.t :=
  match steps with
  | O => p
  | S k => integrate wind (flight wind k p)
  end.

(** ** The starting terrain *)

(** [getTerrainHeight] (lines 139-148).  [count] is [posAttribute.count],
    the number of vertices of the terrain mesh. *)
Definition getTerrainHeight (count : Z) (x : R) : R :=
  let normalizedX := (x + TERRAIN_WIDTH / 2) / TERRAIN_WIDTH in
  let index := Zfloor (normalizedX * IZR TERRAIN_SEGMENTS) in
  if ((index <? 0) || (count <=? index))%Z then -50
  else
    let h :=
      Rtrigo_def.sin (x * (5/100)) * 10 + Rtrigo_def.sin (x * (1/10)) * 5
      + Rtrigo_def.cos (x * (2/100)) * 15 in
    Rmax h (-15).

(** The height map the loop of lines 151-154 stores. *)
Definition initialTerrainHeights (count : Z) : list R :=
  map (fun i =>
         getTerrainHeight count
           ((IZR i / IZR TERRAIN_SEGMENTS) * TERRAIN_WIDTH
            - (TERRAIN_WIDTH / 2)))
    (indexRange 0 TERRAIN_SEGMENTS).

(** ** UIOverlay *)

(** [worms.filter(w => w.teamId === team && !w.isDead)] *)
Definition aliveOf (team : nat) (worms : list Worm) : list Worm :=
  filter (fun w => (teamId w =? team)%nat && negb (isDead w)) worms.

(** The team totals of lines 601-602. *)
Definition teamHp (team : nat) (worms : list Worm) : number :=
  fold_left (fun acc w => add acc (hp w)) (aliveOf team worms) (Fin 0).

(** The line of the game-over banner (line 647). *)
Definition winnerText (worms : list Worm) : string :=
  let team1Hp := teamHp 1 worms in
  let team2Hp := teamHp 2 worms in
  if lt team2Hp team1Hp then "TEAM RED WINS!"
  else if lt team1Hp team2Hp then "TEAM BLUE WINS!"
  else "DRAW!".

(** The crater depth [deformTerrain (x, radius)] takes off sample [j]. *)
Definition craterDepth (x radius : R) (j : nat) : R :=
  let dist := Rabs (worldX (Z.of_nat j) - x) in
  if Rlt_dec dist radius then
    R_sqrt.sqrt (radius * radius - dist * dist)
  else 0.

(** The damage one impact at [(x, y)] takes off the health of [w]: the
    falloff at the planar distance of the worm when its position is finite,
    nothing when a coordinate is an infinity or NaN (the distance is then
    an infinity or NaN and the test [dist < explosionRadius] fails). *)
Definition damageTaken (x y : R) (w : Worm) : R :=
  match Position.x (position w), Position.y (position w) with
  | Fin wx, Fin wy =>
      blastDamage
        (R_sqrt.sqrt ((wx - x) * (wx - x) + (wy - y) * (wy - y)))
  | _, _ => 0
  end.

(** The damage a sequence of impacts takes off the health of [w]: each
    impact counts at the place the earlier knockbacks have left the worm. *)
Fixpoint damageOver (impacts : list (R * R)) (w : Worm) : R :=
  match impacts with
  | [] => 0
  | p :: rest =>
      damageTaken (fst p) (snd p) w
      + damageOver rest (damageWorm (fst p) (snd p) w)
  end.

(** ** The terrain functions in floating-point arithmetic *)

(** What the properties below need of a rounding [fl] to a floating-point
    format: it is monotone, keeps 0, and on numbers of magnitude at most
    [big] (no overflow) its error is at most the relative error [u] plus
    the absolute error [eta] (which covers underflow). *)
Definition rounding (u eta big : R) (fl : R -> R) : Prop :=
  (forall a b, a <= b -> fl a <= fl b)
  /\ fl 0 = 0
  /\ forall y, Rabs y <= big -> Rabs (fl y - y) <= u * Rabs y + eta.

(** Rounding to binary64, the format of a JavaScript number: the unit
    roundoff [2^-53] is below [10^-15]. *)
Definition binary64 (fl : R -> R) : Prop :=
  rounding (1 / 1000000000000000) (1 / 1000000000000000000000000000000)
    1000000000000000000000000000000 fl.

(** Rounding to binary32, what a store into the [Float32Array] of the
    terrain heights does: the unit roundoff [2^-24] is below [10^-7]. *)
Definition binary32 (fl32 : R -> R) : Prop :=
  rounding (1 / 10000000) (1 / 1000000000000000000000000000000)
    1000000000000000000000000000000 fl32.

(** [getTerrainHeightAt] (lines 266-272) with every arithmetic operation
    rounded by [fl].  [TERRAIN_WIDTH / 2] is the constant 100. *)
Definition getTerrainHeightAtFl (fl : R -> R) (heights : list R) (x : R)
  : option R :=
  let i :=
    Zfloor (fl (fl (fl (x + TERRAIN_WIDTH / 2) / TERRAIN_WIDTH)
                * IZR TERRAIN_SEGMENTS)) in
  if (i <? 0)%Z then nth_error heights 0
  else if (TERRAIN_SEGMENTS <? i)%Z then
    nth_error heights (Z.to_nat TERRAIN_SEGMENTS)
  else nth_error heights (Z.to_nat i).

(** The loop body of [deformTerrain] (lines 283-309) with every operation
    rounded by [fl] and the store into the height map rounded by [fl32].
    The square root is taken of a number that is not negative, since [fl]
    is monotone and [dist < radius]. *)
Definition carveFl (fl fl32 : R -> R) (x radius : R) (heights : list R)
  (i : Z) : list R :=
  if ((0 <=? i) && (i <=? TERRAIN_SEGMENTS))%Z then
    let worldX :=
      fl (fl (fl (IZR i / IZR TERRAIN_SEGMENTS) * TERRAIN_WIDTH)
          - TERRAIN_WIDTH / 2) in
    let dist := Rabs (fl (worldX - x)) in
    if Rlt_dec dist radius then
      let depth :=
        fl (R_sqrt.sqrt (fl (fl (radius * radius) - fl (dist * dist)))) in
      match nth_error heights (Z.to_nat i) with
      | Some currentY =>
          let newY := fl (currentY - depth) in
          setNth (Z.to_nat i) (fl32 newY) heights
      | None => heights
      end
    else heights
  else heights.

(** What that loop body does to the height [h] of sample [j]. *)
Definition carvedFl (fl fl32 : R -> R) (x radius : R) (j : nat) (h : R) : R :=
  let worldX :=
    fl (fl (fl (IZR (Z.of_nat j) / IZR TERRAIN_SEGMENTS) * TERRAIN_WIDTH)
        - TERRAIN_WIDTH / 2) in
  let dist := Rabs (fl (worldX - x)) in
  if Rlt_dec dist radius then
    fl32 (fl (h - fl (R_sqrt.sqrt
                        (fl (fl (radius * radius) - fl (dist * dist))))))
  else h.

(** [deformTerrain] (lines 274-313) in floating-point arithmetic.  The
    loop counter runs over integers; the arithmetic of the loop header is
    exact on them as long as they stay below [2^53], which the properties
    below ensure by bounding the centre and the radius. *)
Definition deformTerrainFl (fl fl32 : R -> R) (threeRefs : bool)
  (heights : list R) (x radius : R) : list R :=
  if negb threeRefs then heights
  else
    let centerIndex :=
      Zfloor (fl (fl (fl (x + TERRAIN_WIDTH / 2) / TERRAIN_WIDTH)
                  * IZR TERRAIN_SEGMENTS)) in
    let radiusIndices :=
      Zfloor (fl (fl (fl (radius / TERRAIN_WIDTH) * IZR TERRAIN_SEGMENTS)
                  * 2)) in
    fold_left (carveFl fl fl32 x radius)
      (indexRange (centerIndex - radiusIndices) (centerIndex + radiusIndices))
      heights.

(** Arithmetic without rounding error. *)
Definition noRounding (y : R) : R := y.

(** ** Rosters used as examples *)

(** Only Fritz is left alive. *)
Definition lastStand : list Worm :=
  [ mkWorm 1 1 "Hans" (Fin 0) (Position.mk (Fin (-40)) (Fin 0) (Fin 0))
      (Fin 0) (Fin (5/10)) true;
    mkWorm 2 2 "Fritz" (Fin 100) (Position.mk (Fin 40) (Fin 0) (Fin 0))
      (Fin PI) (Fin (5/10)) false;
    mkWorm 3 1 "Greta" (Fin 0) (Position.mk (Fin (-20)) (Fin 0) (Fin 0))
      (Fin 0) (Fin (8/10)) true;
    mkWorm 4 2 "Otto" (Fin (-20)) (Position.mk (Fin 20) (Fin 0) (Fin 0))
      (Fin PI) (Fin (8/10)) true ].

(** Nobody is left alive. *)
Definition allDown : list Worm :=
  [ mkWorm 1 1 "Hans" (Fin 0) (Position.mk (Fin (-40)) (Fin 0) (Fin 0))
      (Fin 0) (Fin (5/10)) true;
    mkWorm 2 2 "Fritz" (Fin (-5)) (Position.mk (Fin 40) (Fin 0) (Fin 0))
      (Fin PI) (Fin (5/10)) true;
    mkWorm 3 1 "Greta" (Fin 0) (Position.mk (Fin (-20)) (Fin 0) (Fin 0))
      (Fin 0) (Fin (8/10)) true;
    mkWorm 4 2 "Otto" (Fin (-20)) (Position.mk (Fin 20) (Fin 0) (Fin 0))
      (Fin PI) (Fin (8/10)) true ].

(** * Properties *)

(** ** Turn manager *)

Section TurnManager.

Variable roster : list Worm.

Let n := List.length roster.

(** The loop always exits from an index inside the roster; it has then
    seen only dead worms, one per attempt, at consecutive indices modulo the
    roster size, and unless the attempts ran out it stands on a live worm. *)
Lemma skipDead_exit (budget : nat) :
  forall nextIndex attempts,
    (nextIndex < n)%nat ->
    exists i a,
      skipDead roster budget nextIndex attempts = Some (i, a)
      /\ (attempts <= a <= attempts + budget)%nat
      /\ (forall k, (k < a - attempts)%nat ->
                    deadAt roster ((nextIndex + k) mod n))
      /\ i = ((nextIndex + (a - attempts)) mod n)%nat
      /\ ((a < attempts + budget)%nat -> liveAt roster i).
Proof.
  induction budget as [|b IH]; intros idx att Hidx.
  - destruct (nth_error roster idx) as [w|] eqn:Hw.
    2:{ apply nth_error_None in Hw. unfold n in Hidx. lia. }
    exists idx, att. simpl. rewrite Hw.
    replace (att - att)%nat with 0%nat by lia.
    rewrite (Nat.add_0_r idx), Nat.mod_small by exact Hidx.
    destruct (isDead w); (split; [reflexivity|]);
      (split; [lia|]); (split; [intros k Hk; lia|]);
      (split; [reflexivity|]); intros; lia.
  - destruct (nth_error roster idx) as [w|] eqn:Hw.
    2:{ apply nth_error_None in Hw. unfold n in Hidx. lia. }
    simpl. rewrite Hw. destruct (isDead w) eqn:Hd.
    + assert (Hidx' : ((idx + 1) mod n < n)%nat)
        by (apply Nat.mod_upper_bound; lia).
      destruct (IH ((idx + 1) mod n)%nat (S att) Hidx')
        as (i & a & Hrun & Hbnd & Hseen & Hi & Hlive).
      exists i, a. fold n. split; [exact Hrun|].
      split; [lia|]. split; [|split].
      * intros k Hk. destruct k as [|k].
        -- rewrite (Nat.add_0_r idx), Nat.mod_small by exact Hidx.
           exists w. split; assumption.
        -- replace (idx + S k)%nat with ((idx + 1) + k)%nat by lia.
           rewrite <- Nat.Div0.add_mod_idemp_l. apply Hseen. lia.
      * rewrite Hi, Nat.Div0.add_mod_idemp_l. f_equal. lia.
      * intros Ha. apply Hlive. lia.
    + exists idx, att.
      replace (att - att)%nat with 0%nat by lia.
      rewrite (Nat.add_0_r idx), Nat.mod_small by exact Hidx.
      split; [reflexivity|]. split; [lia|]. split; [intros k Hk; lia|].
      split; [reflexivity|]. intros _. exists w. split; assumption.
Qed.

(** Stepping [n] times from any start index passes every index. *)
Lemma cycle_covers (start j : nat) :
  (start < n)%nat -> (j < n)%nat ->
  exists k, (k < n)%nat /\ ((start + k) mod n = j)%nat.
Proof.
  intros Hs Hj. exists ((j + n - start) mod n)%nat. split.
  - apply Nat.mod_upper_bound. lia.
  - rewrite Nat.Div0.add_mod_idemp_r.
    replace (start + (j + n - start))%nat with (j + 1 * n)%nat by lia.
    rewrite Nat.Div0.mod_add. apply Nat.mod_small. exact Hj.
Qed.

(** What [nextTurn] does on a roster that is not empty: game over when all
    worms are dead, the turn of a live worm otherwise. *)
Lemma nextTurn_cases (rnd : R) (current : nat) :
  roster <> [] ->
  (nextTurn rnd roster current = Some GameOver
   /\ forall w, In w roster -> isDead w = true)
  \/ (exists i, nextTurn rnd roster current
                = Some (Advance i ((rnd * 2 - 1) * (5/10)) 30)
                /\ liveAt roster i).
Proof.
  intros Hne.
  assert (Hn : (0 < n)%nat).
  { unfold n. destruct roster; [congruence | simpl; lia]. }
  assert (Hstart : ((current + 1) mod n < n)%nat)
    by (apply Nat.mod_upper_bound; lia).
  destruct (skipDead_exit n _ 0%nat Hstart)
    as (i & a & Hrun & Hbnd & Hseen & Hi & Hlive).
  unfold nextTurn. fold n. rewrite Hrun.
  destruct (n <=? a)%nat eqn:Hcmp.
  - left. split; [reflexivity|].
    apply Nat.leb_le in Hcmp. intros w Hin.
    destruct (In_nth_error _ _ Hin) as [j Hj].
    assert (Hjn : (j < n)%nat).
    { unfold n. apply nth_error_Some. congruence. }
    destruct (cycle_covers _ j Hstart Hjn) as (k & Hk & Hkj).
    destruct (Hseen k ltac:(lia)) as (w' & Hw' & Hdead).
    rewrite Hkj, Hj in Hw'. congruence.
  - right. apply Nat.leb_gt in Hcmp. exists i. split; [reflexivity|].
    apply Hlive. lia.
Qed.

End TurnManager.

(** On an empty roster the loop test of [nextTurn] throws. *)
Example nextTurn_empty_roster (rnd : R) (current : nat) :
  nextTurn rnd [] current = None.
Proof.
  unfold nextTurn. simpl List.length.
  destruct ((current + 1) mod 0)%nat; reflexivity.
Qed.

(** From the first worm of the starting roster the turn passes to the
    second; from the last it wraps around to the first. *)
Example nextTurn_initial (rnd : R) :
  nextTurn rnd initialWorms 0 = Some (Advance 1 ((rnd * 2 - 1) * (5/10)) 30)
  /\ nextTurn rnd initialWorms 3 = Some (Advance 0 ((rnd * 2 - 1) * (5/10)) 30).
Proof. split; reflexivity. Qed.

(** C1. Turn skip correctness: for every (non-empty) roster, whatever the
    pattern of dead flags and whatever the current index, [nextTurn] hands
    the turn to a live worm whenever a live worm exists, and it reports
    game over if and only if no worm is alive. *)
Theorem C1_nextTurn_live_or_game_over :
  forall (rnd : R) (worms : list Worm) (current : nat),
    worms <> [] ->
    ((exists w, In w worms /\ isDead w = false) ->
     exists i wind,
       nextTurn rnd worms current = Some (Advance i wind 30)
       /\ liveAt worms i)
    /\ (nextTurn rnd worms current = Some GameOver
        <-> forall w, In w worms -> isDead w = true).
Proof.
  intros rnd worms current Hne.
  destruct (nextTurn_cases worms rnd current Hne)
    as [[Hover Hall] | (i & Hadv & Hlive)].
  - split.
    + intros (w & Hin & Hw). rewrite (Hall w Hin) in Hw. discriminate.
    + split; intros _; assumption.
  - split.
    + intros _. exists i, ((rnd * 2 - 1) * (5/10)). split; assumption.
    + split.
      * intros Hover. rewrite Hadv in Hover. discriminate.
      * intros Hall. destruct Hlive as (w & Hw & Halive).
        apply nth_error_In in Hw. rewrite (Hall w Hw) in Halive.
        discriminate.
Qed.

Lemma C1_nextTurn_live_or_game_over_witness :
  ((exists w, In w initialWorms /\ isDead w = false) ->
   exists i wind,
     nextTurn (1/2) initialWorms 0 = Some (Advance i wind 30)
     /\ liveAt initialWorms i)
  /\ (nextTurn (1/2) initialWorms 0 = Some GameOver
      <-> forall w, In w initialWorms -> isDead w = true).
Proof.
  apply (C1_nextTurn_live_or_game_over (1/2) initialWorms 0%nat).
  discriminate.
Defined.

(** C8, as the spec states it, fails: with both worms of team 1 at 0 HP and
    dead but team 2 alive, the next [nextTurn] does not end the match, it
    gives the turn to Fritz (index 1). *)
Lemma C8_team1_dead_counterexample :
  Forall (fun w => teamId w = 1%nat -> hp w = Fin 0 /\ isDead w = true)
    team1Down
  /\ nextTurn (1/2) team1Down 0
     = Some (Advance 1 ((1/2 * 2 - 1) * (5/10)) 30)
  /\ nextTurn (1/2) team1Down 0 <> Some GameOver.
Proof.
  split; [|split].
  - repeat constructor; simpl; intros; try discriminate; split; reflexivity.
  - reflexivity.
  - discriminate.
Qed.

(** C8, amended: from any (non-empty) roster state in which every worm of
    team 1 is dead, the next [nextTurn] moves the match to game over exactly
    when the worms of the other team are all dead too; while any worm is
    alive it hands the turn to a live worm instead. *)
Theorem C8_game_over_when_every_team_dead :
  forall (rnd : R) (worms : list Worm) (current : nat),
    worms <> [] ->
    (forall w, In w worms -> teamId w = 1%nat -> isDead w = true) ->
    (nextTurn rnd worms current = Some GameOver
     <-> forall w, In w worms -> teamId w <> 1%nat -> isDead w = true)
    /\ ((exists w, In w worms /\ isDead w = false) ->
        exists i wind,
          nextTurn rnd worms current = Some (Advance i wind 30)
          /\ liveAt worms i).
Proof.
  intros rnd worms current Hne Hteam1.
  destruct (nextTurn_cases worms rnd current Hne)
    as [[Hover Hall] | (i & Hadv & Hlive)].
  - split.
    + split; [intros _ w Hin _; apply Hall, Hin | intros _; exact Hover].
    + intros (w & Hin & Hw). rewrite (Hall w Hin) in Hw. discriminate.
  - split.
    + split.
      * intros Hover. rewrite Hadv in Hover. discriminate.
      * intros Hothers. destruct Hlive as (w & Hw & Halive).
        apply nth_error_In in Hw.
        destruct (Nat.eq_dec (teamId w) 1) as [Ht | Ht].
        -- rewrite (Hteam1 w Hw Ht) in Halive. discriminate.
        -- rewrite (Hothers w Hw Ht) in Halive. discriminate.
    + intros _. exists i, ((rnd * 2 - 1) * (5/10)). split; assumption.
Qed.

Lemma C8_game_over_when_every_team_dead_witness :
  (nextTurn (1/2) team1Down 0 = Some GameOver
   <-> forall w, In w team1Down -> teamId w <> 1%nat -> isDead w = true)
  /\ ((exists w, In w team1Down /\ isDead w = false) ->
      exists i wind,
        nextTurn (1/2) team1Down 0 = Some (Advance i wind 30)
        /\ liveAt team1Down i).
Proof.
  apply (C8_game_over_when_every_team_dead (1/2) team1Down 0%nat).
  - discriminate.
  - simpl. intros w [H | [H | [H | [H | []]]]] Ht; subst w;
      simpl in *; first [reflexivity | discriminate].
Defined.

(** ** Terrain field *)

Lemma worldX_shift (i : Z) : worldX i = IZR i - 100.
Proof. unfold worldX, TERRAIN_SEGMENTS, TERRAIN_WIDTH. lra. Qed.

(** Both lookups and carving turn a world x into the index
    [floor (x + 100)]. *)
Lemma sample_index (x : R) :
  Zfloor (((x + TERRAIN_WIDTH / 2) / TERRAIN_WIDTH) * IZR TERRAIN_SEGMENTS)
  = Zfloor (x + 100).
Proof. unfold TERRAIN_WIDTH, TERRAIN_SEGMENTS. f_equal. lra. Qed.

Lemma radius_index (radius : R) :
  Zfloor ((radius / TERRAIN_WIDTH) * IZR TERRAIN_SEGMENTS * 2)
  = Zfloor (2 * radius).
Proof. unfold TERRAIN_WIDTH, TERRAIN_SEGMENTS. f_equal. lra. Qed.

Section ArrayWrites.

Context {A : Type}.

Lemma setNth_length (i : nat) (v : A) (a : list A) :
  List.length (setNth i v a) = List.length a.
Proof.
  revert i. induction a as [|e a IH]; intros [|i]; simpl; auto.
Qed.

Lemma setNth_same (i : nat) (v d : A) (a : list A) :
  (i < List.length a)%nat -> nth i (setNth i v a) d = v.
Proof.
  revert i. induction a as [|e a IH]; intros [|i] Hi; simpl in *;
    try lia; auto. apply IH. lia.
Qed.

Lemma setNth_other (i j : nat) (v d : A) (a : list A) :
  i <> j -> nth j (setNth i v a) d = nth j a d.
Proof.
  revert i j. induction a as [|e a IH]; intros [|i] [|j] Hij; simpl;
    try congruence; auto.
Qed.

End ArrayWrites.

Section Carving.

Variables x radius : R.

Lemma carve_length (heights : list R) (i : Z) :
  List.length (carve x radius heights i) = List.length heights.
Proof.
  unfold carve.
  destruct ((0 <=? i) && (i <=? TERRAIN_SEGMENTS))%Z; [|reflexivity].
  destruct (Rlt_dec _ radius); [|reflexivity].
  destruct (nth_error heights (Z.to_nat i)); [|reflexivity].
  apply setNth_length.
Qed.

(** Carving at index [i] leaves every other sample alone. *)
Lemma carve_other (heights : list R) (i : Z) (j : nat) :
  Z.of_nat j <> i -> nth j (carve x radius heights i) 0 = nth j heights 0.
Proof.
  intros Hij. unfold carve.
  destruct ((0 <=? i) && (i <=? TERRAIN_SEGMENTS))%Z eqn:Hrange;
    [|reflexivity].
  destruct (Rlt_dec _ radius); [|reflexivity].
  destruct (nth_error heights (Z.to_nat i)); [|reflexivity].
  apply setNth_other.
  apply andb_prop in Hrange. destruct Hrange as [H0 _].
  apply Z.leb_le in H0. lia.
Qed.

(** Carving at the index of sample [j] applies [carved] to it. *)
Lemma carve_same (heights : list R) (j : nat) :
  (j < List.length heights)%nat -> (Z.of_nat j <= TERRAIN_SEGMENTS)%Z ->
  nth j (carve x radius heights (Z.of_nat j)) 0
  = carved x radius j (nth j heights 0).
Proof.
  intros Hlen Hseg. unfold carve, carved.
  replace ((0 <=? Z.of_nat j) && (Z.of_nat j <=? TERRAIN_SEGMENTS))%Z
    with true
    by (symmetry; apply andb_true_intro; split; apply Z.leb_le; lia).
  fold (worldX (Z.of_nat j)). cbv zeta.
  destruct (Rlt_dec (Rabs (worldX (Z.of_nat j) - x)) radius); [|reflexivity].
  rewrite Nat2Z.id.
  destruct (nth_error heights j) as [currentY|] eqn:Hj.
  - rewrite (nth_error_nth _ _ 0 Hj). apply setNth_same. exact Hlen.
  - apply nth_error_None in Hj. lia.
Qed.

(** A loop body never raises a sample. *)
Lemma carve_not_above (heights : list R) (i : Z) (j : nat) :
  nth j (carve x radius heights i) 0 <= nth j heights 0.
Proof.
  destruct (Z.eq_dec (Z.of_nat j) i) as [<- | Hne].
  2:{ rewrite carve_other by exact Hne. lra. }
  unfold carve.
  destruct ((0 <=? Z.of_nat j) && (Z.of_nat j <=? TERRAIN_SEGMENTS))%Z;
    [|lra].
  destruct (Rlt_dec _ radius); [|lra].
  rewrite Nat2Z.id.
  destruct (nth_error heights j) as [currentY|] eqn:Hj; [|lra].
  rewrite (nth_error_nth _ _ 0 Hj).
  rewrite setNth_same by (apply nth_error_Some; congruence).
  match goal with |- _ - R_sqrt.sqrt ?a <= _ =>
    pose proof (sqrt_pos a) end.
  lra.
Qed.

Lemma carve_loop_length (indices : list Z) :
  forall heights,
    List.length (fold_left (carve x radius) indices heights)
    = List.length heights.
Proof.
  induction indices as [|i rest IH]; intros heights; simpl; [reflexivity|].
  rewrite IH. apply carve_length.
Qed.

Lemma carve_loop_not_above (indices : list Z) :
  forall heights j,
    nth j (fold_left (carve x radius) indices heights) 0 <= nth j heights 0.
Proof.
  induction indices as [|i rest IH]; intros heights j; simpl; [lra|].
  eapply Rle_trans; [apply IH | apply carve_not_above].
Qed.

(** The loop from [lo + s] over [count] indices leaves a sample outside
    that window alone... *)
Lemma carve_loop_outside (lo : Z) (count : nat) :
  forall (s : nat) (heights : list R) (j : nat),
    ~ (lo + Z.of_nat s <= Z.of_nat j < lo + Z.of_nat s + Z.of_nat count)%Z ->
    nth j (fold_left (carve x radius)
             (map (fun k => (lo + Z.of_nat k)%Z) (seq s count)) heights) 0
    = nth j heights 0.
Proof.
  induction count as [|c IH]; intros s heights j Hout; simpl; [reflexivity|].
  rewrite IH by lia. apply carve_other. lia.
Qed.

(** ... and applies [carved], once, to a sample inside it. *)
Lemma carve_loop_inside (lo : Z) (count : nat) :
  forall (s : nat) (heights : list R) (j : nat),
    (j < List.length heights)%nat -> (Z.of_nat j <= TERRAIN_SEGMENTS)%Z ->
    (lo + Z.of_nat s <= Z.of_nat j < lo + Z.of_nat s + Z.of_nat count)%Z ->
    nth j (fold_left (carve x radius)
             (map (fun k => (lo + Z.of_nat k)%Z) (seq s count)) heights) 0
    = carved x radius j (nth j heights 0).
Proof.
  induction count as [|c IH]; intros s heights j Hlen Hseg Hin; [lia|].
  simpl. destruct (Z.eq_dec (Z.of_nat j) (lo + Z.of_nat s)) as [Hhead | Hnot].
  - rewrite carve_loop_outside by lia.
    rewrite <- Hhead. apply carve_same; assumption.
  - rewrite IH; [| rewrite carve_length; exact Hlen | exact Hseg | lia].
    f_equal. apply carve_other. lia.
Qed.

End Carving.

(** One [deformTerrain] call, sample by sample: inside the index window
    around the centre a sample is [carved], outside it is untouched. *)
Lemma deformTerrain_sample (heights : list R) (x radius : R) (j : nat) :
  (j < List.length heights)%nat -> (Z.of_nat j <= TERRAIN_SEGMENTS)%Z ->
  let centerIndex := Zfloor (x + 100) in
  let radiusIndices := Zfloor (2 * radius) in
  nth j (deformTerrain true heights x radius) 0
  = if ((centerIndex - radiusIndices <=? Z.of_nat j)
        && (Z.of_nat j <=? centerIndex + radiusIndices))%Z
    then carved x radius j (nth j heights 0)
    else nth j heights 0.
Proof.
  intros Hlen Hseg c ri. unfold deformTerrain, indexRange. simpl negb.
  cbv iota zeta. rewrite sample_index, radius_index. fold c ri.
  destruct ((c - ri <=? Z.of_nat j) && (Z.of_nat j <=? c + ri))%Z eqn:Hwin.
  - apply andb_prop in Hwin. destruct Hwin as [H1 H2].
    apply Z.leb_le in H1. apply Z.leb_le in H2.
    apply carve_loop_inside; try assumption. lia.
  - apply carve_loop_outside.
    apply andb_false_iff in Hwin.
    destruct Hwin as [H | H]; apply Z.leb_gt in H; lia.
Qed.

Lemma deformTerrain_length (ready : bool) (heights : list R) (x radius : R) :
  List.length (deformTerrain ready heights x radius) = List.length heights.
Proof.
  unfold deformTerrain. destruct ready; simpl; [|reflexivity].
  apply carve_loop_length.
Qed.

Lemma deformTerrain_not_above (ready : bool) (heights : list R)
  (x radius : R) (j : nat) :
  nth j (deformTerrain ready heights x radius) 0 <= nth j heights 0.
Proof.
  unfold deformTerrain. destruct ready; simpl; [|lra].
  apply carve_loop_not_above.
Qed.

Lemma deformAll_not_above (ready : bool) (calls : list (R * R)) :
  forall heights : list R,
    List.length (deformAll ready heights calls) = List.length heights
    /\ forall j, nth j (deformAll ready heights calls) 0 <= nth j heights 0.
Proof.
  unfold deformAll.
  induction calls as [|[cx r] rest IH]; intros heights; simpl.
  - split; [reflexivity | intros; lra].
  - destruct (IH (deformTerrain ready heights cx r)) as [Hlen Hle].
    split.
    + rewrite Hlen. apply deformTerrain_length.
    + intros j. eapply Rle_trans; [apply Hle|].
      apply deformTerrain_not_above.
Qed.

(** The terrain after a sequence of explosions is the terrain after as many
    [deformTerrain] calls of radius 6 at the impact abscissas. *)
Lemma terrain_after_explosions (impacts : list (R * R)) :
  forall g : Game,
    terrainHeights (explosions g impacts)
    = deformAll (threeRefs g) (terrainHeights g)
        (map (fun p => (fst p, 6)) impacts).
Proof.
  unfold explosions, deformAll.
  induction impacts as [|p rest IH]; intros g; simpl; [reflexivity|].
  rewrite IH. reflexivity.
Qed.

Lemma animateMove_terrain (keys : Keys) (g : Game) :
  terrainHeights (animateMove keys g) = terrainHeights g.
Proof.
  unfold animateMove.
  destruct (gameState g); try reflexivity;
    (destruct (nth_error (worms g) (currentWormIndex g)) as [w|];
     [| reflexivity]);
    destruct (isDead w); reflexivity.
Qed.

(** C5. Terrain monotonicity: over every sequence of [deformTerrain] calls,
    with arbitrary centres and radii, the number of height samples stays
    what it was and no sample ever ends above its earlier height; the same
    holds for the terrain of a match over every sequence of explosions, and
    moving a worm does not touch the terrain. *)
Theorem C5_deform_never_raises_terrain :
  forall (ready : bool) (calls : list (R * R)) (heights : list R),
    (List.length (deformAll ready heights calls) = List.length heights
     /\ forall j, nth j (deformAll ready heights calls) 0 <= nth j heights 0)
    /\ (forall (g : Game) (impacts : list (R * R)),
          List.length (terrainHeights (explosions g impacts))
          = List.length (terrainHeights g)
          /\ forall j, nth j (terrainHeights (explosions g impacts)) 0
                       <= nth j (terrainHeights g) 0)
    /\ (forall (keys : Keys) (g : Game),
          terrainHeights (animateMove keys g) = terrainHeights g).
Proof.
  intros ready calls heights. split; [|split].
  - apply deformAll_not_above.
  - intros g impacts. rewrite terrain_after_explosions.
    apply deformAll_not_above.
  - apply animateMove_terrain.
Qed.

Lemma flatTerrain_length (h : R) : List.length (flatTerrain h) = 201%nat.
Proof. unfold flatTerrain. rewrite repeat_length. reflexivity. Qed.

Lemma flatTerrain_sample (h : R) (j : nat) :
  (j <= 200)%nat -> nth j (flatTerrain h) 0 = h.
Proof.
  intros Hj. unfold flatTerrain.
  apply nth_error_nth, nth_error_repeat.
  change (Z.to_nat TERRAIN_SEGMENTS) with 200%nat. lia.
Qed.

(** With a radius of at least half a sample spacing the index window of
    [deformTerrain] reaches every sample closer than [radius] to the
    centre. *)
Lemma window_covers_crater (x radius : R) (j : nat) :
  1/2 <= radius ->
  Rabs (worldX (Z.of_nat j) - x) < radius ->
  (Zfloor (x + 100) - Zfloor (2 * radius) <= Z.of_nat j
   <= Zfloor (x + 100) + Zfloor (2 * radius))%Z.
Proof.
  intros Hr Hdist. rewrite worldX_shift in Hdist.
  apply Rabs_def2 in Hdist. destruct Hdist as [Hhi Hlo].
  pose proof (Zfloor_bound (x + 100)) as [Hc1 Hc2].
  pose proof (Zfloor_bound (2 * radius)) as [Hr1 Hr2].
  assert (Hone : (1 <= Zfloor (2 * radius))%Z) by (apply Zfloor_lub; lra).
  apply IZR_le in Hone.
  set (c := Zfloor (x + 100)) in *. set (ri := Zfloor (2 * radius)) in *.
  split.
  - apply le_IZR. rewrite minus_IZR.
    destruct (Z_le_gt_dec (c - ri) (Z.of_nat j)) as [Hle | Hgt].
    + apply IZR_le in Hle. rewrite minus_IZR in Hle. exact Hle.
    + assert (H : (Z.of_nat j + 1 <= c - ri)%Z) by lia.
      apply IZR_le in H. rewrite minus_IZR, plus_IZR in H. lra.
  - apply le_IZR. rewrite plus_IZR.
    destruct (Z_le_gt_dec (Z.of_nat j) (c + ri)) as [Hle | Hgt].
    + apply IZR_le in Hle. rewrite plus_IZR in Hle. exact Hle.
    + assert (H : (c + ri + 1 <= Z.of_nat j)%Z) by lia.
      apply IZR_le in H. rewrite !plus_IZR in H. lra.
Qed.

(** The crater one call digs into a flat field, in exact arithmetic. *)
Lemma flat_crater_profile (cx r h : R) (j : nat) :
  (j <= 200)%nat ->
  let after := deformTerrain true (flatTerrain h) cx r in
  let dist := Rabs (worldX (Z.of_nat j) - cx) in
  (r <= dist -> nth j after 0 = h)
  /\ (0 <= r -> worldX (Z.of_nat j) = cx -> nth j after 0 = h - r)
  /\ (1/2 <= r -> dist < r ->
      nth j after 0 = h - R_sqrt.sqrt (r * r - dist * dist)).
Proof.
  intros Hj after dist.
  assert (Hsample :
    nth j after 0
    = if ((Zfloor (cx + 100) - Zfloor (2 * r) <=? Z.of_nat j)
          && (Z.of_nat j <=? Zfloor (cx + 100) + Zfloor (2 * r)))%Z
      then carved cx r j h else h).
  { unfold after. rewrite deformTerrain_sample;
      [| rewrite flatTerrain_length; lia | unfold TERRAIN_SEGMENTS; lia].
    rewrite flatTerrain_sample by exact Hj. reflexivity. }
  assert (Hin : (Zfloor (cx + 100) - Zfloor (2 * r) <= Z.of_nat j
                 <= Zfloor (cx + 100) + Zfloor (2 * r))%Z ->
                nth j after 0 = carved cx r j h).
  { intros [H1 H2]. rewrite Hsample.
    apply Z.leb_le in H1. apply Z.leb_le in H2. rewrite H1, H2.
    reflexivity. }
  split; [|split].
  - intros Hfar. rewrite Hsample. unfold carved. fold dist.
    destruct (Rlt_dec dist r); [lra|].
    destruct (_ && _); reflexivity.
  - intros Hr Hcx. rewrite Hin.
    + unfold carved. rewrite Hcx.
      replace (cx - cx) with 0 by lra. rewrite Rabs_R0.
      destruct (Rlt_dec 0 r) as [Hpos | Hzero].
      * replace (r * r - 0 * 0) with (r * r) by lra.
        rewrite sqrt_square by lra. reflexivity.
      * lra.
    + rewrite worldX_shift in Hcx.
      replace (cx + 100) with (IZR (Z.of_nat j)) by lra.
      rewrite ZfloorZ.
      assert (0 <= Zfloor (2 * r))%Z by (apply Zfloor_lub; lra).
      lia.
  - intros Hr Hnear. rewrite Hin.
    + unfold carved. fold dist.
      destruct (Rlt_dec dist r); [reflexivity | lra].
    + apply window_covers_crater; assumption.
Qed.

(** The explosion of the game digs with radius 6: in exact arithmetic the
    flat field drops by 6 at the sample under the impact. *)
Example crater_radius_six :
  nth 100 (deformTerrain true (flatTerrain 0) 0 6) 0 = -6.
Proof.
  destruct (flat_crater_profile 0 6 0 100%nat ltac:(lia)) as (_ & Hcentre & _).
  rewrite Hcentre; [lra | lra | rewrite worldX_shift; simpl; lra].
Qed.

(** ** Floating-point arithmetic *)

(** The code computes in binary64 and stores the terrain in a
    [Float32Array].  The lemmas of this part hold for every rounding [fl]
    that meets [rounding]: round-to-nearest of binary64 and of binary32 do,
    with the constants of [binary64] and [binary32]. *)

Lemma Rabs_between (a b : R) : Rabs a <= b -> - b <= a <= b.
Proof. unfold Rabs. destruct (Rcase_abs a); lra. Qed.

Section Rounding.

Variables (u eta big : R) (fl : R -> R).
Hypothesis Hfl : rounding u eta big fl.

Lemma fl_monotone (a b : R) : a <= b -> fl a <= fl b.
Proof. apply Hfl. Qed.

Lemma fl_zero : fl 0 = 0.
Proof. apply Hfl. Qed.

Lemma fl_nonneg (y : R) : 0 <= y -> 0 <= fl y.
Proof. intros Hy. rewrite <- fl_zero. apply fl_monotone, Hy. Qed.

Lemma fl_nonpos (y : R) : y <= 0 -> fl y <= 0.
Proof. intros Hy. rewrite <- fl_zero. apply fl_monotone, Hy. Qed.

(** The rounding of a number between [-M] and [M]. *)
Lemma fl_within (y M : R) :
  0 <= u -> M <= big -> - M <= y <= M ->
  y - (u * M + eta) <= fl y <= y + (u * M + eta).
Proof.
  intros Hu HM Hy.
  assert (Habs : Rabs y <= M) by (apply Rabs_le; lra).
  destruct Hfl as (_ & _ & Herr).
  specialize (Herr y ltac:(lra)).
  apply Rabs_between in Herr.
  assert (u * Rabs y <= u * M) by (apply Rmult_le_compat_l; lra).
  lra.
Qed.

End Rounding.

(** Arithmetic without rounding is one such rounding. *)
Lemma noRounding_rounding (u eta big : R) :
  0 <= u -> 0 <= eta -> rounding u eta big noRounding.
Proof.
  intros Hu Heta. unfold rounding, noRounding.
  split; [intros a b H; exact H|]. split; [reflexivity|].
  intros y _. replace (y - y) with 0 by lra. rewrite Rabs_R0.
  pose proof (Rabs_pos y).
  assert (0 <= u * Rabs y) by (apply Rmult_le_pos; assumption). lra.
Qed.

Lemma noRounding_binary64 : binary64 noRounding.
Proof. apply noRounding_rounding; lra. Qed.

Lemma noRounding_binary32 : binary32 noRounding.
Proof. apply noRounding_rounding; lra. Qed.

(** The exact definitions are the floating-point ones without rounding. *)
Lemma getTerrainHeightAtFl_noRounding (heights : list R) (x : R) :
  getTerrainHeightAtFl noRounding heights x = getTerrainHeightAt heights x.
Proof. reflexivity. Qed.

Lemma deformTerrainFl_noRounding (ready : bool) (heights : list R)
  (x radius : R) :
  deformTerrainFl noRounding noRounding ready heights x radius
  = deformTerrain ready heights x radius.
Proof. reflexivity. Qed.

Section Binary64.

Variable fl : R -> R.
Hypothesis Hfl : binary64 fl.

Lemma fl64_within (y M : R) :
  M <= 1000000 -> - M <= y <= M ->
  y - (M / 1000000000000000 + 1 / 1000000000000000000000000000000)
  <= fl y
  <= y + (M / 1000000000000000 + 1 / 1000000000000000000000000000000).
Proof.
  intros HM Hy.
  pose proof (fl_within _ _ _ fl Hfl y M ltac:(lra) ltac:(lra) Hy). lra.
Qed.

(** The index value [((s / 200) * 200)] computed in binary64 is within
    [10^-12] of [s]. *)
Lemma index_value_close (s : R) :
  -11 <= s <= 211 ->
  Rabs (fl (fl (fl s / 200) * 200) - s) <= 1 / 1000000000000.
Proof.
  intros Hs.
  pose proof (fl64_within s 211 ltac:(lra) ltac:(lra)) as H1.
  pose proof (fl64_within (fl s / 200) (11/10) ltac:(lra) ltac:(lra)) as H2.
  pose proof (fl64_within (fl (fl s / 200) * 200) 221 ltac:(lra) ltac:(lra))
    as H3.
  apply Rabs_le. lra.
Qed.


Lemma index_value_nonpos (s : R) :
  s <= 0 -> fl (fl (fl s / 200) * 200) <= 0.
Proof.
  intros Hs.
  assert (H1 : fl s <= 0) by (apply (fl_nonpos _ _ _ fl Hfl); exact Hs).
  assert (H2 : fl (fl s / 200) <= 0)
    by (apply (fl_nonpos _ _ _ fl Hfl); lra).
  apply (fl_nonpos _ _ _ fl Hfl). lra.
Qed.

Lemma index_value_nonneg (s : R) :
  0 <= s -> 0 <= fl (fl (fl s / 200) * 200).
Proof.
  intros Hs.
  assert (H1 : 0 <= fl s) by (apply (fl_nonneg _ _ _ fl Hfl); exact Hs).
  assert (H2 : 0 <= fl (fl s / 200))
    by (apply (fl_nonneg _ _ _ fl Hfl); lra).
  apply (fl_nonneg _ _ _ fl Hfl). lra.
Qed.

Lemma index_value_large (s : R) :
  201 <= s -> 200 <= fl (fl (fl s / 200) * 200).
Proof.
  intros Hs.
  pose proof (fl_monotone _ _ _ fl Hfl 201 s Hs) as M1.
  pose proof (fl64_within 201 201 ltac:(lra) ltac:(lra)) as E1.
  assert (H1 : 2009/10 <= fl s) by lra.
  pose proof (fl_monotone _ _ _ fl Hfl (1004/1000) (fl s / 200) ltac:(lra))
    as M2.
  pose proof (fl64_within (1004/1000) 2 ltac:(lra) ltac:(lra)) as E2.
  assert (H2 : 1003/1000 <= fl (fl s / 200)) by lra.
  pose proof (fl_monotone _ _ _ fl Hfl (2006/10) (fl (fl s / 200) * 200)
                ltac:(lra)) as M3.
  pose proof (fl64_within (2006/10) 201 ltac:(lra) ltac:(lra)) as E3.
  lra.
Qed.

(** The lookup in floating-point arithmetic reads the sample at the
    clamped floor of the computed index value. *)
Lemma getTerrainHeightAtFl_index (heights : list R) (x : R) :
  getTerrainHeightAtFl fl heights x
  = nth_error heights
      (Z.to_nat
         (Z.max 0
            (Z.min TERRAIN_SEGMENTS
               (Zfloor (fl (fl (fl (x + 100) / 200) * 200)))))).
Proof.
  unfold getTerrainHeightAtFl, TERRAIN_WIDTH, TERRAIN_SEGMENTS. cbv zeta.
  replace (x + 200 / 2) with (x + 100) by lra.
  set (i := Zfloor _).
  destruct (i <? 0)%Z eqn:Hneg.
  - apply Z.ltb_lt in Hneg. f_equal. lia.
  - apply Z.ltb_ge in Hneg.
    destruct (200 <? i)%Z eqn:Hbig.
    + apply Z.ltb_lt in Hbig. f_equal. lia.
    + apply Z.ltb_ge in Hbig. f_equal. lia.
Qed.

End Binary64.

Lemma sqrt_below (a t : R) : 0 <= t -> a <= t * t -> R_sqrt.sqrt a <= t.
Proof.
  intros Ht Ha. rewrite <- (sqrt_square t) by exact Ht.
  apply sqrt_le_1_alt, Ha.
Qed.

(** Square roots of close numbers are close. *)
Lemma sqrt_close (a b t : R) :
  0 <= t -> Rabs (a - b) <= t * t ->
  Rabs (R_sqrt.sqrt a - R_sqrt.sqrt b) <= t.
Proof.
  assert (Hpos : forall a b, 0 <= a -> 0 <= b -> 0 <= t ->
                   - (t * t) <= a - b <= t * t ->
                   R_sqrt.sqrt a - R_sqrt.sqrt b <= t).
  { clear a b. intros a b Ha Hb Ht Hab.
    pose proof (sqrt_pos a) as Hx. pose proof (sqrt_pos b) as Hy.
    pose proof (sqrt_sqrt a Ha) as Hxx. pose proof (sqrt_sqrt b Hb) as Hyy.
    set (x := R_sqrt.sqrt a) in *. set (y := R_sqrt.sqrt b) in *.
    destruct (Rle_dec (x - y) t) as [Hle | Hgt]; [exact Hle|].
    exfalso. assert (Hlt : t < x - y) by lra.
    assert (t * t < (x - y) * (x - y)) by nra.
    assert ((x - y) * (x - y) <= (x - y) * (x + y)) by nra.
    nra. }
  intros Ht Hab. apply Rabs_between in Hab.
  destruct (Rle_dec 0 a) as [Ha | Ha]; destruct (Rle_dec 0 b) as [Hb | Hb].
  - apply Rabs_le. split.
    + pose proof (Hpos b a Hb Ha Ht ltac:(lra)). lra.
    + apply Hpos; assumption || lra.
  - rewrite (sqrt_neg_0 b) by lra.
    pose proof (sqrt_pos a). pose proof (sqrt_below a t Ht ltac:(lra)).
    apply Rabs_le. lra.
  - rewrite (sqrt_neg_0 a) by lra.
    pose proof (sqrt_pos b). pose proof (sqrt_below b t Ht ltac:(lra)).
    apply Rabs_le. lra.
  - rewrite (sqrt_neg_0 a), (sqrt_neg_0 b) by lra.
    apply Rabs_le. lra.
Qed.

Lemma craterDepth_sqrt (cx r : R) (j : nat) :
  0 <= r ->
  craterDepth cx r j
  = R_sqrt.sqrt (r * r - Rabs (worldX (Z.of_nat j) - cx)
                         * Rabs (worldX (Z.of_nat j) - cx)).
Proof.
  intros Hr. unfold craterDepth. cbv zeta.
  destruct (Rlt_dec _ r) as [Hin | Hout]; [reflexivity|].
  symmetry. apply sqrt_neg_0.
  set (d := Rabs _) in *. assert (r <= d) by lra. nra.
Qed.

Lemma craterDepth_bounds (cx r : R) (j : nat) :
  0 <= r -> 0 <= craterDepth cx r j <= r.
Proof.
  intros Hr. rewrite craterDepth_sqrt by exact Hr.
  split; [apply sqrt_pos|]. apply sqrt_below; [exact Hr|].
  set (d := Rabs _). assert (0 <= d * d) by nra. lra.
Qed.

Section CarvingFl.

Variables fl fl32 : R -> R.
Variables x radius : R.

Lemma carveFl_length (heights : list R) (i : Z) :
  List.length (carveFl fl fl32 x radius heights i) = List.length heights.
Proof.
  unfold carveFl.
  destruct ((0 <=? i) && (i <=? TERRAIN_SEGMENTS))%Z; [|reflexivity].
  cbv zeta. destruct (Rlt_dec _ radius); [|reflexivity].
  destruct (nth_error heights (Z.to_nat i)); [|reflexivity].
  apply setNth_length.
Qed.

Lemma carveFl_other (heights : list R) (i : Z) (j : nat) :
  Z.of_nat j <> i ->
  nth j (carveFl fl fl32 x radius heights i) 0 = nth j heights 0.
Proof.
  intros Hij. unfold carveFl.
  destruct ((0 <=? i) && (i <=? TERRAIN_SEGMENTS))%Z eqn:Hrange;
    [|reflexivity].
  cbv zeta. destruct (Rlt_dec _ radius); [|reflexivity].
  destruct (nth_error heights (Z.to_nat i)); [|reflexivity].
  apply setNth_other.
  apply andb_prop in Hrange. destruct Hrange as [H0 _].
  apply Z.leb_le in H0. lia.
Qed.

Lemma carveFl_same (heights : list R) (j : nat) :
  (j < List.length heights)%nat -> (Z.of_nat j <= TERRAIN_SEGMENTS)%Z ->
  nth j (carveFl fl fl32 x radius heights (Z.of_nat j)) 0
  = carvedFl fl fl32 x radius j (nth j heights 0).
Proof.
  intros Hlen Hseg. unfold carveFl, carvedFl.
  replace ((0 <=? Z.of_nat j) && (Z.of_nat j <=? TERRAIN_SEGMENTS))%Z
    with true
    by (symmetry; apply andb_true_intro; split; apply Z.leb_le; lia).
  cbv zeta.
  destruct (Rlt_dec _ radius); [|reflexivity].
  rewrite Nat2Z.id.
  destruct (nth_error heights j) as [currentY|] eqn:Hj.
  - rewrite (nth_error_nth _ _ 0 Hj). apply setNth_same. exact Hlen.
  - apply nth_error_None in Hj. lia.
Qed.

Lemma carveFl_loop_length (indices : list Z) :
  forall heights,
    List.length (fold_left (carveFl fl fl32 x radius) indices heights)
    = List.length heights.
Proof.
  induction indices as [|i rest IH]; intros heights; simpl; [reflexivity|].
  rewrite IH. apply carveFl_length.
Qed.

Lemma carveFl_loop_outside (lo : Z) (count : nat) :
  forall (s : nat) (heights : list R) (j : nat),
    ~ (lo + Z.of_nat s <= Z.of_nat j < lo + Z.of_nat s + Z.of_nat count)%Z ->
    nth j (fold_left (carveFl fl fl32 x radius)
             (map (fun k => (lo + Z.of_nat k)%Z) (seq s count)) heights) 0
    = nth j heights 0.
Proof.
  induction count as [|c IH]; intros s heights j Hout; simpl; [reflexivity|].
  rewrite IH by lia. apply carveFl_other. lia.
Qed.

Lemma carveFl_loop_inside (lo : Z) (count : nat) :
  forall (s : nat) (heights : list R) (j : nat),
    (j < List.length heights)%nat -> (Z.of_nat j <= TERRAIN_SEGMENTS)%Z ->
    (lo + Z.of_nat s <= Z.of_nat j < lo + Z.of_nat s + Z.of_nat count)%Z ->
    nth j (fold_left (carveFl fl fl32 x radius)
             (map (fun k => (lo + Z.of_nat k)%Z) (seq s count)) heights) 0
    = carvedFl fl fl32 x radius j (nth j heights 0).
Proof.
  induction count as [|c IH]; intros s heights j Hlen Hseg Hin; [lia|].
  simpl. destruct (Z.eq_dec (Z.of_nat j) (lo + Z.of_nat s)) as [Hhead | Hnot].
  - rewrite carveFl_loop_outside by lia.
    rewrite <- Hhead. apply carveFl_same; assumption.
  - rewrite IH; [| rewrite carveFl_length; exact Hlen | exact Hseg | lia].
    f_equal. apply carveFl_other. lia.
Qed.

End CarvingFl.

(** One [deformTerrain] call in floating-point arithmetic, sample by
    sample. *)
Lemma deformTerrainFl_sample (fl fl32 : R -> R) (heights : list R)
  (x radius : R) (j : nat) :
  (j < List.length heights)%nat -> (Z.of_nat j <= TERRAIN_SEGMENTS)%Z ->
  let centerIndex := Zfloor (fl (fl (fl (x + 100) / 200) * 200)) in
  let radiusIndices := Zfloor (fl (fl (fl (radius / 200) * 200) * 2)) in
  nth j (deformTerrainFl fl fl32 true heights x radius) 0
  = if ((centerIndex - radiusIndices <=? Z.of_nat j)
        && (Z.of_nat j <=? centerIndex + radiusIndices))%Z
    then carvedFl fl fl32 x radius j (nth j heights 0)
    else nth j heights 0.
Proof.
  intros Hlen Hseg c ri. unfold deformTerrainFl, indexRange. simpl negb.
  cbv iota zeta. unfold TERRAIN_WIDTH.
  change (IZR TERRAIN_SEGMENTS) with 200.
  replace (x + 200 / 2) with (x + 100) by lra. fold c ri.
  destruct ((c - ri <=? Z.of_nat j) && (Z.of_nat j <=? c + ri))%Z eqn:Hwin.
  - apply andb_prop in Hwin. destruct Hwin as [H1 H2].
    apply Z.leb_le in H1. apply Z.leb_le in H2.
    apply carveFl_loop_inside; try assumption. lia.
  - apply carveFl_loop_outside.
    apply andb_false_iff in Hwin.
    destruct Hwin as [H | H]; apply Z.leb_gt in H; lia.
Qed.

Lemma deformTerrainFl_length (fl fl32 : R -> R) (ready : bool)
  (heights : list R) (x radius : R) :
  List.length (deformTerrainFl fl fl32 ready heights x radius)
  = List.length heights.
Proof.
  unfold deformTerrainFl. destruct ready; simpl; [|reflexivity].
  apply carveFl_loop_length.
Qed.

Section RoundedCrater.

Variables fl fl32 : R -> R.
Hypothesis Hfl : binary64 fl.
Hypothesis Hfl32 : binary32 fl32.

Lemma fl32_within (y M : R) :
  M <= 1000000 -> - M <= y <= M ->
  y - (M / 10000000 + 1 / 1000000000000000000000000000000)
  <= fl32 y
  <= y + (M / 10000000 + 1 / 1000000000000000000000000000000).
Proof.
  intros HM Hy.
  pose proof (fl_within _ _ _ fl32 Hfl32 y M ltac:(lra) ltac:(lra) Hy). lra.
Qed.

(** The world x of a sample computed in binary64 (line 285). *)
Lemma worldX_close (j : nat) :
  (j <= 200)%nat ->
  Rabs (fl (fl (fl (IZR (Z.of_nat j) / 200) * 200) - 100)
        - worldX (Z.of_nat j)) <= 6 / 10000000000000.
Proof.
  intros Hj. rewrite worldX_shift.
  assert (Hk : 0 <= IZR (Z.of_nat j) <= 200).
  { split; [apply IZR_le; lia | apply IZR_le; lia]. }
  set (k := IZR (Z.of_nat j)) in *.
  pose proof (fl64_within fl Hfl (k / 200) 1 ltac:(lra) ltac:(lra)) as H1.
  pose proof (fl64_within fl Hfl (fl (k / 200) * 200) 201
                ltac:(lra) ltac:(lra)) as H2.
  pose proof (fl64_within fl Hfl (fl (fl (k / 200) * 200) - 100) 102
                ltac:(lra) ltac:(lra)) as H3.
  apply Rabs_le. lra.
Qed.

(** The distance of a sample from the centre computed in binary64
    (line 286). *)
Lemma dist_close (cx : R) (j : nat) :
  (j <= 200)%nat -> -111 <= cx <= 111 ->
  Rabs (Rabs (fl (fl (fl (fl (IZR (Z.of_nat j) / 200) * 200) - 100) - cx))
        - Rabs (worldX (Z.of_nat j) - cx)) <= 1 / 1000000000000.
Proof.
  intros Hj Hcx.
  pose proof (worldX_close j Hj) as Hw. apply Rabs_between in Hw.
  assert (Hk : 0 <= IZR (Z.of_nat j) <= 200).
  { split; [apply IZR_le; lia | apply IZR_le; lia]. }
  rewrite worldX_shift in *.
  set (w := fl (fl (fl (IZR (Z.of_nat j) / 200) * 200) - 100)) in *.
  pose proof (fl64_within fl Hfl (w - cx) 213 ltac:(lra) ltac:(lra)) as H1.
  eapply Rle_trans; [apply Rabs_triang_inv2|].
  apply Rabs_le. lra.
Qed.

(** The radius in samples computed in binary64 (line 280). *)
Lemma radius_value_close (r : R) :
  0 <= r <= 10 ->
  Rabs (fl (fl (fl (r / 200) * 200) * 2) - 2 * r) <= 1 / 10000000000000.
Proof.
  intros Hr.
  pose proof (fl64_within fl Hfl (r / 200) (1/20) ltac:(lra) ltac:(lra))
    as H1.
  pose proof (fl64_within fl Hfl (fl (r / 200) * 200) 11
                ltac:(lra) ltac:(lra)) as H2.
  pose proof (fl64_within fl Hfl (fl (fl (r / 200) * 200) * 2) 21
                ltac:(lra) ltac:(lra)) as H3.
  apply Rabs_le. lra.
Qed.

(** What the rounded loop body leaves of a sample is within 1/5000 of the
    exact crater profile, and a sample clearly outside the radius is not
    touched. *)
Lemma carvedFl_close (cx r h : R) (j : nat) :
  (j <= 200)%nat -> -111 <= cx <= 111 -> 0 <= r <= 10 ->
  -1000 <= h <= 1000 ->
  Rabs (carvedFl fl fl32 cx r j h - (h - craterDepth cx r j)) <= 1 / 5000
  /\ (r + 1 / 1000000000 <= Rabs (worldX (Z.of_nat j) - cx) ->
      carvedFl fl fl32 cx r j h = h).
Proof.
  intros Hj Hcx Hr Hh.
  rewrite craterDepth_sqrt by lra.
  pose proof (dist_close cx j Hj Hcx) as Hd. apply Rabs_between in Hd.
  unfold carvedFl. cbv zeta. unfold TERRAIN_WIDTH.
  change (IZR TERRAIN_SEGMENTS) with 200.
  replace (200 / 2) with 100 by lra.
  set (d' := Rabs (fl (fl (fl (fl (IZR (Z.of_nat j) / 200) * 200) - 100)
                       - cx))) in *.
  set (d := Rabs (worldX (Z.of_nat j) - cx)) in *.
  assert (Hd'0 : 0 <= d') by apply Rabs_pos.
  assert (Hd0 : 0 <= d) by apply Rabs_pos.
  destruct (Rlt_dec d' r) as [Hin | Hout].
  - split; [|intros; lra].
    assert (Hrr : 0 <= r * r <= 100) by nra.
    assert (Hdd : 0 <= d' * d' <= r * r) by nra.
    pose proof (fl64_within fl Hfl (r * r) 100 ltac:(lra) ltac:(lra)) as Q1.
    pose proof (fl64_within fl Hfl (d' * d') 100 ltac:(lra) ltac:(lra))
      as Q2.
    pose proof (fl_monotone _ _ _ fl Hfl (d' * d') (r * r) ltac:(lra)) as Qm.
    set (q1 := fl (r * r)) in *. set (q2 := fl (d' * d')) in *.
    pose proof (fl64_within fl Hfl (q1 - q2) 101 ltac:(lra) ltac:(lra))
      as Q3.
    set (q3 := fl (q1 - q2)) in *.
    assert (Hsq : - (21 / 1000000000000) <= d' * d' - d * d
                  <= 21 / 1000000000000).
    { replace (d' * d' - d * d) with ((d' - d) * (d' + d)) by ring.
      assert (Hs : 0 <= d' + d <= 21) by lra.
      split.
      - assert (- (1 / 1000000000000) * (d' + d) <= (d' - d) * (d' + d))
          by (apply Rmult_le_compat_r; lra).
        lra.
      - assert ((d' - d) * (d' + d) <= 1 / 1000000000000 * (d' + d))
          by (apply Rmult_le_compat_r; lra).
        lra. }
    assert (Hclose :
      Rabs (R_sqrt.sqrt q3 - R_sqrt.sqrt (r * r - d * d)) <= 5 / 1000000).
    { apply sqrt_close; [lra|]. apply Rabs_le. lra. }
    apply Rabs_between in Hclose.
    assert (Hroot : 0 <= R_sqrt.sqrt (r * r - d * d) <= 10).
    { split; [apply sqrt_pos|]. apply sqrt_below; [lra|].
      assert (0 <= d * d) by nra. lra. }
    set (e := R_sqrt.sqrt (r * r - d * d)) in *.
    pose proof (fl64_within fl Hfl (R_sqrt.sqrt q3) 11
                  ltac:(lra) ltac:(lra)) as D1.
    set (dp := fl (R_sqrt.sqrt q3)) in *.
    pose proof (fl64_within fl Hfl (h - dp) 1012 ltac:(lra) ltac:(lra))
      as D2.
    set (ny := fl (h - dp)) in *.
    pose proof (fl32_within ny 1013 ltac:(lra) ltac:(lra)) as D3.
    apply Rabs_le. lra.
  - split; [|intros; reflexivity].
    replace (h - (h - R_sqrt.sqrt (r * r - d * d)))
      with (R_sqrt.sqrt (r * r - d * d)) by lra.
    rewrite Rabs_pos_eq by apply sqrt_pos.
    apply sqrt_below; [lra|].
    destruct (Rle_dec r d) as [Hfar | Hnear].
    + assert (r * r <= d * d) by nra. lra.
    + replace (r * r - d * d) with ((r - d) * (r + d)) by ring.
      assert ((r - d) * (r + d) <= 1 / 1000000000000 * (r + d))
        by (apply Rmult_le_compat_r; lra).
      lra.
Qed.

(** A sample the index window of [deformTerrain] does not reach lies
    outside the crater or at most 1/5000 deep in it. *)
Lemma outside_window_shallow (cx r : R) (j : nat) :
  -111 <= cx <= 111 -> 6 / 10 <= r <= 10 ->
  let centerIndex := Zfloor (fl (fl (fl (cx + 100) / 200) * 200)) in
  let radiusIndices := Zfloor (fl (fl (fl (r / 200) * 200) * 2)) in
  ~ (centerIndex - radiusIndices <= Z.of_nat j
     <= centerIndex + radiusIndices)%Z ->
  0 <= craterDepth cx r j <= 1 / 5000
  /\ r - 1 / 100000000000 < Rabs (worldX (Z.of_nat j) - cx).
Proof.
  intros Hcx Hr c ri Hout.
  rewrite craterDepth_sqrt by lra.
  pose proof (index_value_close fl Hfl (cx + 100) ltac:(lra)) as Hv.
  apply Rabs_between in Hv.
  pose proof (radius_value_close r ltac:(lra)) as Hvr.
  apply Rabs_between in Hvr.
  pose proof (Zfloor_bound (fl (fl (fl (cx + 100) / 200) * 200)))
    as [Hc1 Hc2].
  pose proof (Zfloor_bound (fl (fl (fl (r / 200) * 200) * 2))) as [Hr1 Hr2].
  assert (Hone : (1 <= ri)%Z) by (apply Zfloor_lub; simpl; lra).
  fold c in Hc1, Hc2. fold ri in Hr1, Hr2.
  apply IZR_le in Hone.
  set (v := fl (fl (fl (cx + 100) / 200) * 200)) in *.
  set (vr := fl (fl (fl (r / 200) * 200) * 2)) in *.
  set (d := Rabs (worldX (Z.of_nat j) - cx)).
  assert (Hd0 : 0 <= d) by apply Rabs_pos.
  assert (Hfar : r - 1 / 100000000000 < d).
  { unfold d. rewrite worldX_shift.
    destruct (Z_le_gt_dec (c - ri) (Z.of_nat j)) as [Hlo | Hlo].
    - assert (Hhi : (c + ri + 1 <= Z.of_nat j)%Z) by lia.
      apply IZR_le in Hhi. rewrite !plus_IZR in Hhi.
      rewrite Rabs_pos_eq by lra.
      destruct (Rle_dec (IZR ri) 1) as [Hsmall | Hbig]; [lra|].
      assert (H2 : (2 <= ri)%Z).
      { assert (1 < ri)%Z by (apply lt_IZR; lra). lia. }
      apply IZR_le in H2. lra.
    - assert (Hhi : (Z.of_nat j + 1 <= c - ri)%Z) by lia.
      apply IZR_le in Hhi. rewrite minus_IZR, plus_IZR in Hhi.
      rewrite Rabs_left1 by lra. lra. }
  split; [|exact Hfar].
  split; [apply sqrt_pos|].
  apply sqrt_below; [lra|].
  destruct (Rle_dec r d) as [Hge | Hlt].
  - assert (r * r <= d * d) by nra. lra.
  - replace (r * r - d * d) with ((r - d) * (r + d)) by ring.
    assert ((r - d) * (r + d) <= 1 / 100000000000 * (r + d))
      by (apply Rmult_le_compat_r; lra).
    lra.
Qed.

(** The crater one call digs into a flat field, in floating-point
    arithmetic. *)
Lemma flat_crater_rounded (cx r h : R) (j : nat) :
  (j <= 200)%nat -> -111 <= cx <= 111 -> 6 / 10 <= r <= 10 ->
  -1000 <= h <= 1000 ->
  let after := deformTerrainFl fl fl32 true (flatTerrain h) cx r in
  let dist := Rabs (worldX (Z.of_nat j) - cx) in
  Rabs (nth j after 0 - (h - craterDepth cx r j)) <= 1 / 5000
  /\ (worldX (Z.of_nat j) = cx -> Rabs (nth j after 0 - (h - r)) <= 1 / 5000)
  /\ (r + 1 / 1000000000 <= dist -> nth j after 0 = h).
Proof.
  intros Hj Hcx Hr Hh after dist.
  assert (Hsample :
    nth j after 0
    = if ((Zfloor (fl (fl (fl (cx + 100) / 200) * 200))
           - Zfloor (fl (fl (fl (r / 200) * 200) * 2)) <=? Z.of_nat j)
          && (Z.of_nat j <=? Zfloor (fl (fl (fl (cx + 100) / 200) * 200))
                             + Zfloor (fl (fl (fl (r / 200) * 200) * 2))))%Z
      then carvedFl fl fl32 cx r j h else h).
  { unfold after. rewrite deformTerrainFl_sample;
      [| rewrite flatTerrain_length; lia | unfold TERRAIN_SEGMENTS; lia].
    rewrite flatTerrain_sample by exact Hj. reflexivity. }
  destruct (carvedFl_close cx r h j Hj Hcx ltac:(lra) Hh) as [Hnum Hkeep].
  assert (Hall : Rabs (nth j after 0 - (h - craterDepth cx r j)) <= 1 / 5000).
  { rewrite Hsample.
    destruct (_ && _)%Z eqn:Hwin; [exact Hnum|].
    destruct (outside_window_shallow cx r j Hcx Hr) as [Hshallow _].
    { intros [H1 H2]. apply Z.leb_le in H1. apply Z.leb_le in H2.
      rewrite H1, H2 in Hwin. discriminate. }
    apply Rabs_le. lra. }
  split; [exact Hall|]. split.
  - intros Hat. revert Hall. rewrite craterDepth_sqrt by lra.
    rewrite Hat. replace (cx - cx) with 0 by lra. rewrite Rabs_R0.
    replace (r * r - 0 * 0) with (r * r) by lra.
    rewrite sqrt_square by lra. intros Hall. exact Hall.
  - intros Hfar. rewrite Hsample.
    destruct (_ && _)%Z; [apply Hkeep; exact Hfar | reflexivity].
Qed.

End RoundedCrater.

(** C6, as the spec states it, fails for a radius below half a sample
    spacing, in floating-point arithmetic as in exact arithmetic: after
    [deformTerrain(0.7, 0.4)] on the flat field at height 0 the sample at
    world x = 1 (index 101) lies at distance 0.3 < 0.4 from the centre and
    should drop by [sqrt (0.4^2 - 0.3^2)], more than 1/4; yet it is not
    lowered at all: the loop visits index 100 only. *)
Lemma C6_small_radius_counterexample :
  let dist := Rabs (worldX 101 - 7/10) in
  dist < 4/10
  /\ 1/4 < R_sqrt.sqrt ((4/10) * (4/10) - dist * dist)
  /\ forall fl fl32 : R -> R,
       binary64 fl -> binary32 fl32 ->
       nth 101 (deformTerrainFl fl fl32 true (flatTerrain 0) (7/10) (4/10)) 0
       = 0.
Proof.
  cbv zeta.
  assert (Hdist : Rabs (worldX 101 - 7/10) = 3/10).
  { rewrite worldX_shift. rewrite Rabs_pos_eq; lra. }
  rewrite Hdist. split; [lra|]. split.
  - rewrite <- (sqrt_square (1/4)) at 1 by lra.
    apply sqrt_lt_1_alt. lra.
  - intros fl fl32 Hfl Hfl32.
    rewrite (deformTerrainFl_sample _ _ _ _ _ 101%nat);
      [| rewrite flatTerrain_length; lia | unfold TERRAIN_SEGMENTS; lia].
    pose proof (index_value_close fl Hfl (7/10 + 100) ltac:(lra)) as Hv.
    apply Rabs_between in Hv.
    pose proof (radius_value_close fl Hfl (4/10) ltac:(lra)) as Hr.
    apply Rabs_between in Hr.
    rewrite (Zfloor_eq 100) by (simpl; lra).
    rewrite (Zfloor_eq 0) by (simpl; lra).
    simpl. reflexivity.
Qed.

(** C6, amended: after one [deformTerrain(cx, r)] call on a flat field at
    height [h] (scene refs set; centre within 111 of the origin, radius
    between 0.6 and 10, height between -1000 and 1000), computed in binary64
    with the heights stored as binary32, every sample at world distance less
    than [r] from [cx] ends within 1/5000 of [h - sqrt (r^2 - dist^2)], a
    sample whose world x equals [cx] ends within 1/5000 of [h - r], every
    sample at distance at least [r] ends within 1/5000 of [h], and every
    sample at distance at least [r + 10^-9] is unchanged. *)
Theorem C6_crater_shape :
  forall (fl fl32 : R -> R) (cx r h : R) (j : nat),
    binary64 fl -> binary32 fl32 ->
    (j <= 200)%nat ->
    -111 <= cx <= 111 -> 6/10 <= r <= 10 -> -1000 <= h <= 1000 ->
    let after := deformTerrainFl fl fl32 true (flatTerrain h) cx r in
    let dist := Rabs (worldX (Z.of_nat j) - cx) in
    (dist < r ->
     Rabs (nth j after 0 - (h - R_sqrt.sqrt (r * r - dist * dist)))
     <= 1 / 5000)
    /\ (worldX (Z.of_nat j) = cx -> Rabs (nth j after 0 - (h - r)) <= 1 / 5000)
    /\ (r <= dist -> Rabs (nth j after 0 - h) <= 1 / 5000)
    /\ (r + 1 / 1000000000 <= dist -> nth j after 0 = h).
Proof.
  intros fl fl32 cx r h j Hfl Hfl32 Hj Hcx Hr Hh after dist.
  destruct (flat_crater_rounded fl fl32 Hfl Hfl32 cx r h j Hj Hcx Hr Hh)
    as (Hall & Hcentre & Hfar).
  fold after in Hall, Hcentre, Hfar. fold dist in Hfar.
  unfold craterDepth in Hall. cbv zeta in Hall. fold dist in Hall.
  split; [|split; [exact Hcentre | split; [|exact Hfar]]].
  - intros Hin. destruct (Rlt_dec dist r); [exact Hall | lra].
  - intros Hout. destruct (Rlt_dec dist r); [lra|].
    replace (nth j after 0 - h) with (nth j after 0 - (h - 0)) by lra.
    exact Hall.
Qed.

Lemma C6_crater_shape_witness :
  let after :=
    deformTerrainFl noRounding noRounding true (flatTerrain 0) 0 6 in
  let dist := Rabs (worldX (Z.of_nat 100) - 0) in
  (dist < 6 ->
   Rabs (nth 100 after 0 - (0 - R_sqrt.sqrt (6 * 6 - dist * dist)))
   <= 1 / 5000)
  /\ (worldX (Z.of_nat 100) = 0 -> Rabs (nth 100 after 0 - (0 - 6)) <= 1 / 5000)
  /\ (6 <= dist -> Rabs (nth 100 after 0 - 0) <= 1 / 5000)
  /\ (6 + 1 / 1000000000 <= dist -> nth 100 after 0 = 0).
Proof.
  apply (C6_crater_shape noRounding noRounding 0 6 0 100%nat);
    [exact noRounding_binary64 | exact noRounding_binary32
    | lia | lra | lra | lra].
Defined.

(** [getTerrainHeightAt] reads the sample at index [floor (x + 100)],
    clamped into [0, 200]. *)
Lemma getTerrainHeightAt_index (heights : list R) (x : R) :
  getTerrainHeightAt heights x
  = nth_error heights
      (Z.to_nat (Z.max 0 (Z.min TERRAIN_SEGMENTS (Zfloor (x + 100))))).
Proof.
  unfold getTerrainHeightAt. rewrite sample_index. cbv zeta.
  unfold TERRAIN_SEGMENTS.
  destruct (Zfloor (x + 100) <? 0)%Z eqn:Hneg.
  - apply Z.ltb_lt in Hneg. f_equal. lia.
  - apply Z.ltb_ge in Hneg.
    destruct (200 <? Zfloor (x + 100))%Z eqn:Hbig.
    + apply Z.ltb_lt in Hbig. f_equal. lia.
    + apply Z.ltb_ge in Hbig. f_equal. lia.
Qed.


Lemma rampTerrain_sample (k : nat) :
  (k <= 200)%nat -> nth_error rampTerrain k = Some (IZR (Z.of_nat k)).
Proof.
  intros Hk. unfold rampTerrain.
  change (S (Z.to_nat TERRAIN_SEGMENTS)) with 201%nat.
  rewrite nth_error_map, nth_error_seq.
  destruct (Nat.ltb_spec k 201); [reflexivity | lia].
Qed.

(** C9, as the spec states it, fails: the lookup does not round to the
    nearest sample.  On the ramp field, at x = 0.7 it returns sample 100
    (world x = 0, height 100) whatever the rounding of binary64 does, while
    the nearest sample is sample 101 (world x = 1, height 101), and no
    nearest sample has the height returned. *)
Lemma C9_nearest_sample_counterexample :
  (forall fl : R -> R,
     binary64 fl -> getTerrainHeightAtFl fl rampTerrain (7/10) = Some 100)
  /\ nearestSample (7/10) 101
  /\ forall i, nearestSample (7/10) i ->
               nth_error rampTerrain (Z.to_nat i) <> Some 100.
Proof.
  assert (Hnear : forall i, nearestSample (7/10) i -> i = 101%Z).
  { intros i [Hi Hmin]. specialize (Hmin 101%Z).
    rewrite !worldX_shift in Hmin.
    replace (101 - 100 - 7 / 10) with (3/10) in Hmin by lra.
    rewrite (Rabs_pos_eq (3/10)) in Hmin by lra.
    assert (Hle : Rabs (IZR i - 100 - 7 / 10) <= 3/10)
      by (apply Hmin; unfold TERRAIN_SEGMENTS; lia).
    assert (100 < IZR i /\ IZR i < 102) as [H1 H2].
    { revert Hle. unfold Rabs. destruct (Rcase_abs _); intros; lra. }
    assert (100 < i)%Z by (apply lt_IZR; lra).
    assert (i < 102)%Z by (apply lt_IZR; lra).
    lia. }
  split; [|split].
  - intros fl Hfl. rewrite (getTerrainHeightAtFl_index fl).
    pose proof (index_value_close fl Hfl (7/10 + 100) ltac:(lra)) as Hv.
    apply Rabs_between in Hv.
    rewrite (Zfloor_eq 100) by (simpl; lra).
    apply (rampTerrain_sample 100). lia.
  - split; [unfold TERRAIN_SEGMENTS; lia|].
    intros k Hk. rewrite !worldX_shift.
    replace (101 - 100 - 7 / 10) with (3/10) by lra.
    rewrite (Rabs_pos_eq (3/10)) by lra.
    unfold TERRAIN_SEGMENTS in Hk.
    destruct (Z_le_gt_dec k 100) as [Hlow | Hhigh].
    + apply IZR_le in Hlow. rewrite Rabs_left1; lra.
    + assert (Hk' : (101 <= k)%Z) by lia. apply IZR_le in Hk'.
      rewrite Rabs_pos_eq; lra.
  - intros i Hi. rewrite (Hnear i Hi).
    change (Z.to_nat 101) with 101%nat.
    rewrite (rampTerrain_sample 101) by lia.
    change (Z.of_nat 101) with 101%Z.
    intros Heq. injection Heq as Heq. lra.
Qed.

(** C9, amended: computed in binary64, for every real x the lookup returns
    a stored sample and never reads outside the field: the first sample for
    x below the playable width, the last sample for x above it (from
    [100 + 10^-12] on), and in between a sample at or left of x up to the
    rounding of the index: x lies between the world x of the sample and the
    world x of the next one, widened by [10^-12] on both sides.  It is not
    always the nearest sample. *)
Theorem C9_lookup_clamped_floor_sample :
  forall (fl : R -> R) (heights : list R) (x : R),
  binary64 fl ->
  List.length heights = 201%nat ->
  exists i,
    (0 <= i <= TERRAIN_SEGMENTS)%Z
    /\ getTerrainHeightAtFl fl heights x
       = Some (nth (Z.to_nat i) heights 0)
    /\ (x < -100 -> i = 0%Z)
    /\ (100 + 1 / 1000000000000 <= x -> i = TERRAIN_SEGMENTS)
    /\ (-100 <= x <= 100 + 1 / 1000000000000 ->
        worldX i - 1 / 1000000000000 <= x
        /\ x < worldX i + 1 + 1 / 1000000000000).
Proof.
  intros fl heights x Hfl Hlen. unfold TERRAIN_SEGMENTS.
  set (v := fl (fl (fl (x + 100) / 200) * 200)).
  pose proof (Zfloor_bound v) as [Hlo Hhi].
  exists (Z.max 0 (Z.min 200 (Zfloor v))).
  split; [lia|]. split.
  - rewrite (getTerrainHeightAtFl_index fl). fold v. apply nth_error_nth'.
    unfold TERRAIN_SEGMENTS. lia.
  - split; [|split].
    + intros Hx.
      assert (v <= 0) by (apply index_value_nonpos; [exact Hfl | lra]).
      assert (Zfloor v <= 0)%Z by (apply le_IZR; lra). lia.
    + intros Hx.
      assert (Hv : 200 <= v).
      { destruct (Rle_dec 101 x) as [Hbig | Hsmall].
        - apply index_value_large; [exact Hfl | lra].
        - pose proof (index_value_close fl Hfl (x + 100) ltac:(lra)) as Hv.
          fold v in Hv. apply Rabs_between in Hv. lra. }
      assert (200 <= Zfloor v)%Z by (apply Zfloor_lub; lra). lia.
    + intros [Hx1 Hx2].
      pose proof (index_value_close fl Hfl (x + 100) ltac:(lra)) as Hv.
      fold v in Hv. apply Rabs_between in Hv.
      rewrite worldX_shift.
      destruct (Z_lt_le_dec (Zfloor v) 0) as [Hneg | Hpos].
      * rewrite Z.max_l by lia.
        assert (Zfloor v + 1 <= 0)%Z by lia.
        apply IZR_le in H. rewrite plus_IZR in H. simpl. lra.
      * destruct (Z_lt_le_dec 200 (Zfloor v)) as [Hbig | Hsmall].
        -- rewrite Z.min_l, Z.max_r by lia.
           apply IZR_lt in Hbig. lra.
        -- rewrite Z.min_r, Z.max_r by lia. lra.
Qed.


Lemma C9_lookup_clamped_floor_sample_witness :
  exists i,
    (0 <= i <= TERRAIN_SEGMENTS)%Z
    /\ getTerrainHeightAtFl noRounding (flatTerrain 0) (7/10)
       = Some (nth (Z.to_nat i) (flatTerrain 0) 0)
    /\ (7/10 < -100 -> i = 0%Z)
    /\ (100 + 1 / 1000000000000 <= 7/10 -> i = TERRAIN_SEGMENTS)
    /\ (-100 <= 7/10 <= 100 + 1 / 1000000000000 ->
        worldX i - 1 / 1000000000000 <= 7/10
        /\ 7/10 < worldX i + 1 + 1 / 1000000000000).
Proof.
  apply (C9_lookup_clamped_floor_sample noRounding (flatTerrain 0) (7/10));
    [exact noRounding_binary64 | reflexivity].
Defined.

(** ** Combat resolver *)

(** *** The damage falloff *)

Lemma blastDamage_epicentre : blastDamage 0 = maxDamage.
Proof.
  unfold blastDamage, explosionRadius, maxDamage.
  destruct (Rlt_dec 0 8) as [_ | H]; [|lra].
  replace (40 * (1 - 0 / 8)) with (IZR 40) by lra.
  rewrite ZfloorZ. reflexivity.
Qed.


Lemma blastDamage_formula (dist : R) :
  dist <= explosionRadius ->
  blastDamage dist
  = IZR (Zfloor (maxDamage * (1 - dist / explosionRadius))).
Proof.
  intros Hd. unfold blastDamage.
  destruct (Rlt_dec dist explosionRadius) as [_ | Hge]; [reflexivity|].
  replace dist with explosionRadius by lra.
  unfold explosionRadius, maxDamage.
  replace (40 * (1 - 8 / 8)) with (IZR 0) by lra.
  rewrite ZfloorZ. reflexivity.
Qed.

Lemma blastDamage_nonneg (dist : R) : 0 <= blastDamage dist.
Proof.
  unfold blastDamage, explosionRadius, maxDamage.
  destruct (Rlt_dec dist 8) as [Hd | _]; [|lra].
  apply IZR_le, Zfloor_lub. simpl. lra.
Qed.

Lemma blastDamage_monotone (d1 d2 : R) :
  d1 <= d2 -> blastDamage d2 <= blastDamage d1.
Proof.
  intros Hle. destruct (Rlt_dec d2 explosionRadius) as [H2 | H2].
  - unfold blastDamage.
    destruct (Rlt_dec d2 explosionRadius); [|contradiction].
    destruct (Rlt_dec d1 explosionRadius); [|lra].
    apply IZR_le, Zfloor_le. unfold explosionRadius, maxDamage. lra.
  - replace (blastDamage d2) with 0; [apply blastDamage_nonneg|].
    unfold blastDamage. destruct (Rlt_dec d2 explosionRadius);
      [contradiction | reflexivity].
Qed.

Lemma blastDamage_at_most (dist : R) :
  0 <= dist -> blastDamage dist <= maxDamage.
Proof.
  intros Hd. rewrite <- blastDamage_epicentre. apply blastDamage_monotone, Hd.
Qed.
(** *** One worm under one impact *)

Lemma planar_distance (a b c e : R) :
  JS.sqrt (add (mul (sub (Fin a) (Fin b)) (sub (Fin a) (Fin b)))
                (mul (sub (Fin c) (Fin e)) (sub (Fin c) (Fin e))))
  = Fin (R_sqrt.sqrt ((a - b) * (a - b) + (c - e) * (c - e))).
Proof.
  simpl. destruct (Rlt_dec _ 0) as [Hneg | _].
  - exfalso. pose proof (Rle_0_sqr (a + - b)). pose proof (Rle_0_sqr (c + - e)).
    unfold Rsqr in *. lra.
  - reflexivity.
Qed.

Lemma signedInf_zero : signedInf 0 = NaN.
Proof.
  unfold signedInf. destruct (Rlt_dec 0 0); [lra|].
  destruct (Rlt_dec 0 0); [lra | reflexivity].
Qed.

Lemma distance_zero (a b : R) :
  R_sqrt.sqrt (a * a + b * b) = 0 -> a = 0 /\ b = 0.
Proof.
  intros H. apply sqrt_eq_0 in H; [|nra].
  split; nra.
Qed.

(** The callback on a worm whose position and health are finite: beyond the
    radius only the death mark can change; inside it the health drops by
    [blastDamage] and x is pushed away, to NaN when the worm stands on the
    impact point. *)
Lemma damageWorm_finite (x y : R) (w : Worm) (wx wy h : R) :
  Position.x (position w) = Fin wx ->
  Position.y (position w) = Fin wy ->
  hp w = Fin h ->
  let d := R_sqrt.sqrt ((wx - x) * (wx - x) + (wy - y) * (wy - y)) in
  damageWorm x y w
  = if Rlt_dec d explosionRadius then
      let h' := h - blastDamage d in
      let x' :=
        if Req_dec_T d 0 then NaN
        else Fin (wx + (wx - x) / d * ((explosionRadius - d) * (5/10))) in
      let w' := setX (setHp w (Fin h')) x' in
      if Rle_dec h' 0 then markDead w' else w'
    else if Rle_dec h 0 then markDead w else w.
Proof.
  destruct w as [i t nm hp0 [px py pz] rot aim dead].
  simpl. intros -> -> ->.
  unfold damageWorm. cbv zeta.
  simpl position. simpl Position.x. simpl Position.y.
  rewrite planar_distance.
  set (d := R_sqrt.sqrt _).
  unfold blastDamage. simpl.
  destruct (Rlt_dec d explosionRadius) as [Hnear | Hfar];
    [| simpl; destruct (Rle_dec h 0); reflexivity].
  destruct (Req_dec_T explosionRadius 0) as [H8 | _];
    [unfold explosionRadius in H8; lra|].
  destruct (Req_dec_T d 0) as [Hd | Hd].
  - destruct (distance_zero _ _ Hd) as [Hdx _].
    replace (wx + - x) with 0 by lra.
    rewrite signedInf_zero. simpl. destruct (Rle_dec _ 0); reflexivity.
  - simpl. destruct (Rle_dec _ 0); reflexivity.
Qed.

(** [Math.sqrt] never returns minus infinity nor a negative number. *)
Lemma sqrt_result (a : number) :
  match JS.sqrt a with
  | Fin d => 0 <= d
  | NInf => False
  | _ => True
  end.
Proof.
  destruct a as [r| | |]; simpl; auto.
  destruct (Rlt_dec r 0); [exact I | apply sqrt_pos].
Qed.

(** The health of a worm under one impact, wherever the worm stands (its
    position may be NaN): it loses a damage between 0 and [maxDamage], with
    no clamp, and the worm is marked dead exactly when the new health is at
    most 0 or it was dead already. *)
Lemma damageWorm_health (x y : R) (w : Worm) (h : R) :
  hp w = Fin h ->
  exists dmg,
    0 <= dmg <= maxDamage
    /\ hp (damageWorm x y w) = Fin (h - dmg)
    /\ isDead (damageWorm x y w)
       = if Rle_dec (h - dmg) 0 then true else isDead w.
Proof.
  destruct w as [i t nm hp0 pos rot aim dead]. simpl. intros ->.
  unfold damageWorm. cbv zeta. simpl position.
  pose proof (sqrt_result
                (add (mul (sub (Position.x pos) (Fin x))
                        (sub (Position.x pos) (Fin x)))
                   (mul (sub (Position.y pos) (Fin y))
                      (sub (Position.y pos) (Fin y))))) as Hdist.
  destruct (JS.sqrt _) as [d| | |].
  - simpl lt. destruct (Rlt_dec d explosionRadius) as [Hnear | Hfar].
    + exists (blastDamage d).
      split; [split; [apply blastDamage_nonneg
                     | apply blastDamage_at_most, Hdist]|].
      unfold blastDamage.
      destruct (Rlt_dec d explosionRadius); [|contradiction].
      simpl. destruct (Req_dec_T explosionRadius 0) as [H8 | _];
        [unfold explosionRadius in H8; lra|].
      simpl. destruct (Rle_dec _ 0); split; reflexivity.
    + exists 0. split; [unfold maxDamage; lra|].
      rewrite Rminus_0_r. simpl. destruct (Rle_dec h 0); split; reflexivity.
  - exists 0. split; [unfold maxDamage; lra|].
    rewrite Rminus_0_r. simpl. destruct (Rle_dec h 0); split; reflexivity.
  - contradiction.
  - exists 0. split; [unfold maxDamage; lra|].
    rewrite Rminus_0_r. simpl. destruct (Rle_dec h 0); split; reflexivity.
Qed.



(** A worm standing exactly on the impact point. *)
Lemma zero_distance_hit (x y h : R) (i t : nat) (nm : string)
  (pz rot aim : number) (dead : bool) :
  let w := mkWorm i t nm (Fin h) (Position.mk (Fin x) (Fin y) pz)
             rot aim dead in
  hp (damageWorm x y w) = Fin (h - 40)
  /\ Position.x (position (damageWorm x y w)) = NaN.
Proof.
  intros w.
  rewrite (damageWorm_finite x y w x y h eq_refl eq_refl eq_refl).
  replace ((x - x) * (x - x) + (y - y) * (y - y)) with 0 by lra.
  rewrite sqrt_0, blastDamage_epicentre. cbv zeta.
  destruct (Rlt_dec 0 explosionRadius) as [_ | H];
    [| unfold explosionRadius in H; lra].
  destruct (Req_dec_T 0 0) as [_ | H]; [|lra].
  unfold maxDamage.
  destruct (Rle_dec (h - 40) 0); split; reflexivity.
Qed.

(** C2: the code departs from the claim.  A worm standing exactly on the
    impact point does take [maxDamage] (40), but its knockback is computed
    as [(dx / dist) * knockbackForce] with [dx = 0] and [dist = 0]: the
    quotient [0 / 0] is NaN and the worm's x-position becomes NaN instead of
    staying where it was. *)
Theorem C2_zero_distance_hit_gives_NaN_position :
  forall (x y h : R) (i t : nat) (nm : string) (pz rot aim : number)
         (dead : bool),
    let w := mkWorm i t nm (Fin h) (Position.mk (Fin x) (Fin y) pz)
               rot aim dead in
    hp (damageWorm x y w) = Fin (h - 40)
    /\ Position.x (position (damageWorm x y w)) = NaN.
Proof. exact zero_distance_hit. Qed.

(** The same at the start of a match: a shell landing exactly on Hans. *)
Example direct_hit_on_Hans :
  match nth_error initialWorms 0 with
  | Some hans =>
      hp (damageWorm (-40) 0 hans) = Fin (100 - 40)
      /\ Position.x (position (damageWorm (-40) 0 hans)) = NaN
  | None => False
  end.
Proof. simpl nth_error. cbv iota. apply zero_distance_hit. Qed.

(** A worm one unit away from the impact: distance 1, damage 35. *)
Lemma distance_one (a b : R) :
  a * a + b * b = 1 -> R_sqrt.sqrt (a * a + b * b) = 1.
Proof. intros ->. apply sqrt_1. Qed.

Lemma blastDamage_one : blastDamage 1 = 35.
Proof.
  rewrite blastDamage_formula by (unfold explosionRadius; lra).
  unfold maxDamage, explosionRadius.
  replace (40 * (1 - 1 / 8)) with (IZR 35) by lra.
  rewrite ZfloorZ. reflexivity.
Qed.




(** *** Sequences of impacts *)

Lemma worms_after_explosions (impacts : list (R * R)) :
  forall (g : Game) (i : nat),
    nth_error (worms (explosions g impacts)) i
    = option_map (hits impacts) (nth_error (worms g) i).
Proof.
  unfold explosions, hits.
  induction impacts as [|p rest IH]; intros g i; simpl.
  - destruct (nth_error (worms g) i); reflexivity.
  - rewrite IH. simpl. rewrite nth_error_map.
    destruct (nth_error (worms g) i); reflexivity.
Qed.

(** Health over a sequence of impacts: it only goes down, by at most
    [maxDamage] per impact and with no floor at 0, and a worm at or below 0
    is marked dead. *)
Lemma hits_health (impacts : list (R * R)) :
  forall (w : Worm) (h : R),
    hp w = Fin h ->
    (h <= 0 -> isDead w = true) ->
    exists h',
      hp (hits impacts w) = Fin h'
      /\ h - maxDamage * INR (List.length impacts) <= h' <= h
      /\ (h' <= 0 -> isDead (hits impacts w) = true).
Proof.
  unfold hits.
  induction impacts as [|p rest IH]; intros w h Hh Hdead.
  - exists h. simpl. split; [exact Hh|]. split; [lra | exact Hdead].
  - destruct (damageWorm_health (fst p) (snd p) w h Hh)
      as (dmg & Hdmg & Hhp & Hflag).
    destruct (IH (damageWorm (fst p) (snd p) w) (h - dmg) Hhp)
      as (h' & Hh' & Hbnd & Hdead').
    + intros Hle. rewrite Hflag.
      destruct (Rle_dec (h - dmg) 0); [reflexivity | contradiction].
    + exists h'. simpl fold_left. split; [exact Hh'|]. split; [|exact Hdead'].
      change (List.length (p :: rest)) with (S (List.length rest)).
      rewrite S_INR. unfold maxDamage in *. lra.
Qed.

(** A worm hit from one unit straight below: 35 damage, no sideways
    push. *)
Lemma hit_one_below (i t : nat) (nm : string) (h wx wy : R)
  (pz rot aim : number) (dead : bool) (y : R) :
  wy - y = 1 ->
  damageWorm wx y
    (mkWorm i t nm (Fin h) (Position.mk (Fin wx) (Fin wy) pz) rot aim dead)
  = mkWorm i t nm (Fin (h - 35)) (Position.mk (Fin wx) (Fin wy) pz) rot aim
      (if Rle_dec (h - 35) 0 then true else dead).
Proof.
  intros Hy.
  set (w := mkWorm i t nm (Fin h) (Position.mk (Fin wx) (Fin wy) pz)
              rot aim dead).
  rewrite (damageWorm_finite wx y w wx wy h eq_refl eq_refl eq_refl).
  rewrite distance_one by (rewrite Hy; lra).
  rewrite blastDamage_one. cbv zeta.
  destruct (Rlt_dec 1 explosionRadius) as [_ | H];
    [| unfold explosionRadius in H; lra].
  destruct (Req_dec_T 1 0) as [H | _]; [lra|].
  unfold explosionRadius, setX, setHp, markDead. simpl.
  replace (wx + (wx - wx) / 1 * ((8 - 1) * (5 / 10))) with wx by lra.
  destruct (Rle_dec (h - 35) 0); reflexivity.
Qed.







(** The three shells of the counterexample take 35 each: 105 in all, 5 more
    than Hans has. *)
Example three_hits_take_105 :
  damageOver [(-40, -1); (-40, -1); (-40, -1)]
    (mkWorm 1 1 "Hans" (Fin 100) (Position.mk (Fin (-40)) (Fin 0) (Fin 0))
       (Fin 0) (Fin (5/10)) false)
  = 105.
Proof.
  cbn [damageOver fst snd]. rewrite !hit_one_below by lra.
  unfold damageTaken. simpl.
  rewrite !distance_one by lra. rewrite blastDamage_one. lra.
Qed.

(** ** Staying inside the playable width *)

(** The movement keys keep a worm inside the playable width: each write is
    followed by its clamp. *)
Lemma moveWorm_inside (keys : Keys) (w : Worm) :
  insideWidth (Position.x (position w)) ->
  insideWidth (Position.x (position (moveWorm keys w))).
Proof.
  destruct w as [i t nm hp0 [px py pz] rot aim dead].
  intros (r & Hr & Hin). simpl in Hr. subst px.
  unfold insideWidth, TERRAIN_WIDTH, moveSpeed in *.
  unfold moveWorm, TERRAIN_WIDTH, moveSpeed.
  destruct keys as [[|] [|] up down space]; simpl.
  - destruct (Rlt_dec (r + - (1 / 10)) (- (200) / 2)); simpl;
      match goal with |- context [Rlt_dec ?a ?b] => destruct (Rlt_dec a b) end;
      simpl; eexists; (split; [reflexivity | lra]).
  - destruct (Rlt_dec (r + - (1 / 10)) (- (200) / 2)); simpl;
      eexists; (split; [reflexivity | lra]).
  - destruct (Rlt_dec (200 / 2) (r + 1 / 10)); simpl;
      eexists; (split; [reflexivity | lra]).
  - eexists; (split; [reflexivity | lra]).
Qed.

Lemma setNth_Forall {A : Type} (P : A -> Prop) (i : nat) (v : A)
  (a : list A) :
  P v -> Forall P a -> Forall P (setNth i v a).
Proof.
  intros Hv Ha. revert i.
  induction Ha as [|e a He Ha IH]; intros [|i]; simpl; constructor; auto.
Qed.

(** So does the input block of [animate], for every worm of the roster. *)
Lemma animateMove_inside (keys : Keys) (g : Game) :
  Forall (fun w => insideWidth (Position.x (position w))) (worms g) ->
  Forall (fun w => insideWidth (Position.x (position w)))
    (worms (animateMove keys g)).
Proof.
  intros Hall. unfold animateMove.
  destruct (gameState g); try exact Hall;
    (destruct (nth_error (worms g) (currentWormIndex g)) as [w|] eqn:Hw;
     [| exact Hall]);
    (destruct (isDead w); [exact Hall|]); simpl;
    (apply setNth_Forall; [| exact Hall]);
    apply moveWorm_inside;
    apply nth_error_In in Hw;
    exact (proj1 (Forall_forall _ _) Hall w Hw).
Qed.

(** C10: the code departs from the claim.  Walking is clamped to the
    playable width ([moveWorm_inside]), but the knockback of
    [handleExplosion] is written back without any clamp: Fritz, standing
    inside the map at x = 99.9, is thrown by an impact at (98, 0) to
    x = 102.95, beyond the right edge of the map at 100. *)
Theorem C10_knockback_leaves_playable_width :
  insideWidth (Position.x (position fritzAtEdge))
  /\ Position.x (position (damageWorm 98 0 fritzAtEdge)) = Fin (10295/100)
  /\ TERRAIN_WIDTH / 2 < 10295/100
  /\ ~ insideWidth (Position.x (position (damageWorm 98 0 fritzAtEdge))).
Proof.
  assert (Hx : Position.x (position (damageWorm 98 0 fritzAtEdge))
               = Fin (10295/100)).
  { rewrite (damageWorm_finite 98 0 fritzAtEdge (999/10) 0 100
               eq_refl eq_refl eq_refl).
    replace ((999 / 10 - 98) * (999 / 10 - 98) + (0 - 0) * (0 - 0))
      with ((19/10) * (19/10)) by lra.
    rewrite sqrt_square by lra. cbv zeta.
    destruct (Rlt_dec (19/10) explosionRadius) as [_ | H];
      [| unfold explosionRadius in H; lra].
    destruct (Req_dec_T (19/10) 0) as [H | _]; [lra|].
    unfold explosionRadius.
    destruct (Rle_dec _ 0); simpl; f_equal; lra. }
  split; [|split; [exact Hx | split]].
  - exists (999/10). split; [reflexivity | unfold TERRAIN_WIDTH; lra].
  - unfold TERRAIN_WIDTH. lra.
  - rewrite Hx. intros (r & Hr & Hin). injection Hr as <-.
    unfold TERRAIN_WIDTH in Hin. lra.
Qed.

(** * Further properties of the component *)

(** ** Turn order *)

(** A successful [nextTurn] in full: the new index, counted cyclically from
    the worm after the current one, is the first whose worm is alive. *)
Lemma nextTurn_advance (rnd : R) (worms : list Worm) (current i : nat)
  (wind : R) (t : Z) :
  nextTurn rnd worms current = Some (Advance i wind t) ->
  wind = (rnd * 2 - 1) * (5/10)
  /\ t = 30%Z
  /\ exists k,
       (k < List.length worms)%nat
       /\ i = ((current + 1 + k) mod List.length worms)%nat
       /\ (i < List.length worms)%nat
       /\ liveAt worms i
       /\ forall k', (k' < k)%nat ->
                     deadAt worms ((current + 1 + k') mod List.length worms).
Proof.
  intros Hrun.
  assert (Hn : (0 < List.length worms)%nat).
  { destruct worms; [| simpl; lia].
    rewrite nextTurn_empty_roster in Hrun. discriminate. }
  set (n := List.length worms) in *.
  assert (Hstart : ((current + 1) mod n < n)%nat)
    by (apply Nat.mod_upper_bound; lia).
  destruct (skipDead_exit worms n _ 0%nat Hstart)
    as (j & a & Hloop & Hbnd & Hseen & Hj & Hlive).
  unfold nextTurn in Hrun. fold n in Hrun. rewrite Hloop in Hrun.
  destruct (n <=? a)%nat eqn:Hcmp; [discriminate|].
  apply Nat.leb_gt in Hcmp. injection Hrun as <- <- <-.
  split; [reflexivity|]. split; [reflexivity|].
  exists a. rewrite Nat.sub_0_r in *. fold n in Hj, Hseen.
  rewrite Nat.Div0.add_mod_idemp_l in Hj.
  split; [exact Hcmp|]. split; [exact Hj|]. split.
  - rewrite Hj. apply Nat.mod_upper_bound. lia.
  - split; [apply Hlive; lia|].
    intros k' Hk'. rewrite <- Nat.Div0.add_mod_idemp_l.
    apply Hseen. exact Hk'.
Qed.

(** X1. Turn order: when [nextTurn] advances, the new turn index is inside
    the roster and is the first index after the current one, in cyclic
    order, whose worm is alive: every worm it passes over is dead.  The wind
    is re-rolled from the random draw and the timer reset to 30. *)
Theorem X1_nextTurn_first_live_in_cyclic_order :
  forall (rnd : R) (worms : list Worm) (current i : nat) (wind : R) (t : Z),
    nextTurn rnd worms current = Some (Advance i wind t) ->
    wind = (rnd * 2 - 1) * (5/10)
    /\ t = 30%Z
    /\ exists k,
         (k < List.length worms)%nat
         /\ i = ((current + 1 + k) mod List.length worms)%nat
         /\ (i < List.length worms)%nat
         /\ liveAt worms i
         /\ forall k', (k' < k)%nat ->
                       deadAt worms
                         ((current + 1 + k') mod List.length worms).
Proof. exact nextTurn_advance. Qed.

Lemma X1_nextTurn_first_live_in_cyclic_order_witness :
  (1/2 * 2 - 1) * (5/10) = (1/2 * 2 - 1) * (5/10)
  /\ 30%Z = 30%Z
  /\ exists k,
       (k < List.length team1Down)%nat
       /\ 1%nat = ((3 + 1 + k) mod List.length team1Down)%nat
       /\ (1 < List.length team1Down)%nat
       /\ liveAt team1Down 1
       /\ forall k', (k' < k)%nat ->
                     deadAt team1Down
                       ((3 + 1 + k') mod List.length team1Down).
Proof.
  apply (X1_nextTurn_first_live_in_cyclic_order (1/2) team1Down 3 1
           ((1/2 * 2 - 1) * (5/10)) 30).
  reflexivity.
Defined.

(** X2. A lone survivor keeps the turn: when the current worm is the only
    one alive, [nextTurn] walks once around the roster and comes back to it;
    the match does not end while one worm lives. *)
Theorem X2_lone_survivor_keeps_turn :
  forall (rnd : R) (worms : list Worm) (current : nat),
    liveAt worms current ->
    (forall j, j <> current -> ~ liveAt worms j) ->
    nextTurn rnd worms current
    = Some (Advance current ((rnd * 2 - 1) * (5/10)) 30).
Proof.
  intros rnd worms current Hlive Hothers.
  assert (Hne : worms <> []).
  { destruct Hlive as (w & Hw & _). intros ->.
    destruct current; discriminate. }
  destruct (nextTurn_cases worms rnd current Hne)
    as [[_ Hall] | (i & Hadv & Hi)].
  - destruct Hlive as (w & Hw & Halive).
    apply nth_error_In in Hw. rewrite (Hall w Hw) in Halive. discriminate.
  - destruct (Nat.eq_dec i current) as [-> | Hneq]; [exact Hadv|].
    destruct (Hothers i Hneq Hi).
Qed.

Lemma X2_lone_survivor_keeps_turn_witness :
  nextTurn (1/2) lastStand 1
  = Some (Advance 1 ((1/2 * 2 - 1) * (5/10)) 30).
Proof.
  apply (X2_lone_survivor_keeps_turn (1/2) lastStand 1).
  - eexists. split; reflexivity.
  - intros j Hj (w & Hw & Halive).
    destruct j as [|[|[|[|j]]]]; simpl in Hw;
      try (injection Hw as <-; simpl in Halive; discriminate);
      try (destruct j; discriminate).
    apply Hj. reflexivity.
Defined.

(** ** The overlay at game over *)

Lemma aliveOf_all_dead (team : nat) (worms : list Worm) :
  (forall w, In w worms -> isDead w = true) -> aliveOf team worms = [].
Proof.
  intros Hall. unfold aliveOf.
  induction worms as [|w rest IH]; simpl; [reflexivity|].
  rewrite (Hall w (or_introl eq_refl)), andb_false_r.
  apply IH. intros w' Hin. apply Hall. right. exact Hin.
Qed.

(** X3. Whenever [nextTurn] ends the match, the overlay finds no living
    worm in either team, shows 0 HP for both and announces a draw: the
    banner lines naming a winning team can never appear. *)
Theorem X3_game_over_is_always_a_draw :
  forall (rnd : R) (worms : list Worm) (current : nat),
    nextTurn rnd worms current = Some GameOver ->
    (forall team, aliveOf team worms = [] /\ teamHp team worms = Fin 0)
    /\ winnerText worms = "DRAW!"%string.
Proof.
  intros rnd worms current Hover.
  assert (Hne : worms <> []).
  { intros ->. rewrite nextTurn_empty_roster in Hover. discriminate. }
  assert (Hall : forall w, In w worms -> isDead w = true).
  { destruct (nextTurn_cases worms rnd current Hne)
      as [[_ Hall] | (i & Hadv & _)]; [exact Hall|].
    rewrite Hadv in Hover. discriminate. }
  assert (Hteam : forall team,
             aliveOf team worms = [] /\ teamHp team worms = Fin 0).
  { intros team. unfold teamHp.
    rewrite (aliveOf_all_dead team worms Hall). split; reflexivity. }
  split; [exact Hteam|].
  unfold winnerText. rewrite (proj2 (Hteam 1%nat)), (proj2 (Hteam 2%nat)).
  simpl. destruct (Rlt_dec 0 0); [lra | reflexivity].
Qed.

Lemma X3_game_over_is_always_a_draw_witness :
  (forall team, aliveOf team allDown = [] /\ teamHp team allDown = Fin 0)
  /\ winnerText allDown = "DRAW!"%string.
Proof.
  apply (X3_game_over_is_always_a_draw (1/2) allDown 0).
  reflexivity.
Defined.

(** ** What an explosion leaves alone *)

(** One impact changes nothing of a worm but its health, its x and its
    death mark, and never revives it. *)
Lemma damageWorm_frame (x y : R) (w : Worm) :
  id (damageWorm x y w) = id w
  /\ teamId (damageWorm x y w) = teamId w
  /\ name (damageWorm x y w) = name w
  /\ Position.y (position (damageWorm x y w)) = Position.y (position w)
  /\ Position.z (position (damageWorm x y w)) = Position.z (position w)
  /\ rotation (damageWorm x y w) = rotation w
  /\ aimAngle (damageWorm x y w) = aimAngle w
  /\ (isDead w = true -> isDead (damageWorm x y w) = true).
Proof.
  unfold damageWorm. cbv zeta.
  destruct (lt _ (Fin explosionRadius));
    match goal with |- context [le ?a ?b] => destruct (le a b) end;
    destruct w; simpl; repeat split; auto.
Qed.

Lemma hits_frame (impacts : list (R * R)) :
  forall w : Worm,
    id (hits impacts w) = id w
    /\ teamId (hits impacts w) = teamId w
    /\ name (hits impacts w) = name w
    /\ Position.y (position (hits impacts w)) = Position.y (position w)
    /\ Position.z (position (hits impacts w)) = Position.z (position w)
    /\ rotation (hits impacts w) = rotation w
    /\ aimAngle (hits impacts w) = aimAngle w
    /\ (isDead w = true -> isDead (hits impacts w) = true).
Proof.
  unfold hits. induction impacts as [|p rest IH]; intros w; simpl.
  - repeat split; auto.
  - destruct (IH (damageWorm (fst p) (snd p) w))
      as (H1 & H2 & H3 & H4 & H5 & H6 & H7 & H8).
    destruct (damageWorm_frame (fst p) (snd p) w)
      as (F1 & F2 & F3 & F4 & F5 & F6 & F7 & F8).
    repeat split; try congruence. auto.
Qed.

Lemma worms_explosions_map (impacts : list (R * R)) :
  forall g : Game,
    worms (explosions g impacts) = map (hits impacts) (worms g).
Proof.
  unfold explosions, hits.
  induction impacts as [|p rest IH]; intros g; simpl.
  - symmetry. apply map_id.
  - rewrite IH. simpl. apply map_map.
Qed.

Lemma explosions_current (impacts : list (R * R)) :
  forall g : Game,
    currentWormIndex (explosions g impacts) = currentWormIndex g.
Proof.
  unfold explosions.
  induction impacts as [|p rest IH]; intros g; simpl; [reflexivity|].
  rewrite IH. reflexivity.
Qed.

(** X4. Over every sequence of explosions the roster keeps its length and
    its order, the current turn index is untouched, and every worm keeps
    its id, team, name, y and z position, facing and aim; a dead worm never
    comes back to life.  Only health, x-position and the death mark can
    change. *)
Theorem X4_explosions_keep_roster_and_identity :
  forall (g : Game) (impacts : list (R * R)),
    List.length (worms (explosions g impacts)) = List.length (worms g)
    /\ currentWormIndex (explosions g impacts) = currentWormIndex g
    /\ forall i w,
         nth_error (worms g) i = Some w ->
         exists w',
           nth_error (worms (explosions g impacts)) i = Some w'
           /\ id w' = id w
           /\ teamId w' = teamId w
           /\ name w' = name w
           /\ Position.y (position w') = Position.y (position w)
           /\ Position.z (position w') = Position.z (position w)
           /\ rotation w' = rotation w
           /\ aimAngle w' = aimAngle w
           /\ (isDead w = true -> isDead w' = true).
Proof.
  intros g impacts. split; [|split].
  - rewrite worms_explosions_map. apply length_map.
  - apply explosions_current.
  - intros i w Hw. exists (hits impacts w). split.
    + rewrite worms_after_explosions, Hw. reflexivity.
    + apply hits_frame.
Qed.

(** ** The knockback *)

Lemma planar_distance_bounds (a b : R) :
  let d := R_sqrt.sqrt (a * a + b * b) in
  0 <= d /\ d * d = a * a + b * b /\ Rabs a <= d.
Proof.
  intros d. assert (Hd : 0 <= d) by apply sqrt_pos.
  assert (Hsq : d * d = a * a + b * b) by (apply sqrt_sqrt; nra).
  split; [exact Hd|]. split; [exact Hsq|].
  apply Rabs_le. split; nra.
Qed.

(** X5. The knockback of a worm inside the blast, off the impact point:
    its x moves by a displacement of size at most [(8 - dist) / 2], so less
    than 4 units, pointing away from the impact (never towards it), and the
    worm ends at least as far from the impact abscissa as it was. *)
Theorem X5_knockback_bounded_and_away :
  forall (x y : R) (w : Worm) (wx wy h : R),
    Position.x (position w) = Fin wx ->
    Position.y (position w) = Fin wy ->
    hp w = Fin h ->
    let dist := R_sqrt.sqrt ((wx - x) * (wx - x) + (wy - y) * (wy - y)) in
    0 < dist < explosionRadius ->
    exists delta,
      Position.x (position (damageWorm x y w)) = Fin (wx + delta)
      /\ Rabs delta <= (explosionRadius - dist) / 2
      /\ Rabs delta < 4
      /\ 0 <= delta * (wx - x)
      /\ Rabs (wx - x) <= Rabs (wx + delta - x).
Proof.
  intros x y w wx wy h Hx Hy Hh dist [Hpos Hnear].
  destruct (planar_distance_bounds (wx - x) (wy - y)) as (_ & Hsq & Habs).
  fold dist in Hsq, Habs.
  set (q := (wx - x) / dist).
  assert (Hq : wx - x = q * dist) by (unfold q; field; lra).
  assert (Hq1 : -1 <= q <= 1).
  { assert (Rabs (q * dist) <= dist) by (rewrite <- Hq; exact Habs).
    rewrite Rabs_mult, (Rabs_pos_eq dist) in H by lra.
    assert (Rabs q <= 1) by nra.
    unfold Rabs in H0. destruct (Rcase_abs q); lra. }
  exists (q * ((explosionRadius - dist) * (5/10))).
  unfold explosionRadius in *.
  split.
  - rewrite (damageWorm_finite x y w wx wy h Hx Hy Hh). fold dist.
    cbv zeta. unfold explosionRadius.
    destruct (Rlt_dec dist 8); [|lra].
    destruct (Req_dec_T dist 0); [lra|].
    destruct (Rle_dec _ 0); reflexivity.
  - assert (Hk : 0 < (8 - dist) * (5/10) < 4) by lra.
    remember ((8 - dist) * (5/10)) as k eqn:Hkdef.
    assert (Hdelta : Rabs (q * k) <= k).
    { apply Rabs_le. split; nra. }
    split; [lra|]. split; [lra|]. split.
    + replace (q * k * (wx - x)) with ((q * q) * (k * dist))
        by (rewrite Hq; ring).
      apply Rmult_le_pos; nra.
    + replace (wx + q * k - x) with (q * (dist + k)) by nra.
      rewrite Hq, !Rabs_mult.
      rewrite (Rabs_pos_eq dist), (Rabs_pos_eq (dist + k)) by lra.
      pose proof (Rabs_pos q). nra.
Qed.

Lemma X5_knockback_bounded_and_away_witness :
  let dist :=
    R_sqrt.sqrt ((-40 - -41) * (-40 - -41) + (0 - 0) * (0 - 0)) in
  exists delta,
    Position.x (position (damageWorm (-41) 0 deadHans)) = Fin (-40 + delta)
    /\ Rabs delta <= (explosionRadius - dist) / 2
    /\ Rabs delta < 4
    /\ 0 <= delta * (-40 - -41)
    /\ Rabs (-40 - -41) <= Rabs (-40 + delta - -41).
Proof.
  apply (X5_knockback_bounded_and_away (-41) 0 deadHans (-40) 0 0);
    try reflexivity.
  rewrite distance_one by lra. unfold explosionRadius. lra.
Defined.

(** ** A worm whose x is NaN *)

Lemma damageWorm_NaN (x y : R) (w : Worm) :
  Position.x (position w) = NaN ->
  damageWorm x y w = if le (hp w) (Fin 0) then markDead w else w.
Proof.
  intros Hx. unfold damageWorm. rewrite Hx. reflexivity.
Qed.

Lemma hits_NaN (impacts : list (R * R)) :
  forall w : Worm,
    Position.x (position w) = NaN ->
    hp (hits impacts w) = hp w
    /\ Position.x (position (hits impacts w)) = NaN.
Proof.
  unfold hits. induction impacts as [|p rest IH]; intros w Hx; simpl.
  - split; [reflexivity | exact Hx].
  - rewrite (damageWorm_NaN _ _ w Hx).
    destruct (le (hp w) (Fin 0)).
    + destruct (IH (markDead w) Hx) as [H1 H2]. split; assumption.
    + apply IH. exact Hx.
Qed.

(** X6. A worm whose x-position is NaN (what a hit exactly on the worm
    leaves behind) is out of reach for the rest of the match: no later
    explosion, wherever it lands, changes its health or its x; the movement
    keys leave its x at NaN; and the terrain lookup at its x finds no
    height ([undefined]). *)
Theorem X6_NaN_worm_is_frozen_and_immune :
  forall (w : Worm) (impacts : list (R * R)) (keys : Keys)
         (heights : list R),
    Position.x (position w) = NaN ->
    hp (hits impacts w) = hp w
    /\ Position.x (position (hits impacts w)) = NaN
    /\ Position.x (position (moveWorm keys w)) = NaN
    /\ getTerrainHeightAtNumber heights (Position.x (position w)) = None.
Proof.
  intros w impacts keys heights Hx.
  destruct (hits_NaN impacts w Hx) as [Hhp Hpos].
  split; [exact Hhp|]. split; [exact Hpos|]. split.
  - destruct w as [i t nm hp0 [px py pz] rot aim dead]. simpl in Hx. subst.
    unfold moveWorm. destruct keys as [[|] [|] up down space]; reflexivity.
  - rewrite Hx. reflexivity.
Qed.

Lemma X6_NaN_worm_is_frozen_and_immune_witness :
  let w := mkWorm 1 1 "Hans" (Fin 60) (Position.mk NaN (Fin 0) (Fin 0))
             (Fin 0) (Fin (5/10)) false in
  hp (hits [(-40, 0); (0, 0)] w) = hp w
  /\ Position.x (position (hits [(-40, 0); (0, 0)] w)) = NaN
  /\ Position.x (position (moveWorm (mkKeys true false false false false) w))
     = NaN
  /\ getTerrainHeightAtNumber (flatTerrain 0) (Position.x (position w))
     = None.
Proof.
  apply (X6_NaN_worm_is_frozen_and_immune
           (mkWorm 1 1 "Hans" (Fin 60) (Position.mk NaN (Fin 0) (Fin 0))
              (Fin 0) (Fin (5/10)) false)).
  reflexivity.
Defined.

(** ** Health on the overlay *)

(** After an impact a worm that is still alive has a positive health. *)
Lemma damageWorm_alive_positive (x y : R) (w : Worm) (h : R) :
  hp w = Fin h ->
  exists h',
    hp (damageWorm x y w) = Fin h'
    /\ (isDead (damageWorm x y w) = false -> 0 < h').
Proof.
  intros Hh.
  destruct (damageWorm_health x y w h Hh) as (dmg & _ & Hhp & Hflag).
  exists (h - dmg). split; [exact Hhp|].
  rewrite Hflag. destruct (Rle_dec (h - dmg) 0); [discriminate | lra].
Qed.

Lemma sum_of_positive_health (alive : list Worm) :
  (forall w, In w alive -> exists h, hp w = Fin h /\ 0 < h) ->
  forall acc, 0 <= acc ->
    exists s, fold_left (fun a w => add a (hp w)) alive (Fin acc) = Fin s
              /\ 0 <= s.
Proof.
  induction alive as [|w rest IH]; intros Hall acc Hacc; simpl.
  - exists acc. split; [reflexivity | exact Hacc].
  - destruct (Hall w (or_introl eq_refl)) as (h & Hh & Hpos).
    rewrite Hh. simpl. apply IH; [|lra].
    intros w' Hin. apply Hall. right. exact Hin.
Qed.

(** X7. Negative health never reaches the overlay: after [handleExplosion]
    on a roster whose health values are finite, every worm still alive has
    a positive health, so each team total the overlay shows (it adds up
    living worms only) is a finite number that is not negative. *)
Theorem X7_team_totals_are_never_negative :
  forall (g : Game) (x y : R),
    Forall (fun w => exists h, hp w = Fin h) (worms g) ->
    (forall w', In w' (worms (handleExplosion g x y)) ->
                isDead w' = false ->
                exists h', hp w' = Fin h' /\ 0 < h')
    /\ forall team,
         exists s, teamHp team (worms (handleExplosion g x y)) = Fin s
                   /\ 0 <= s.
Proof.
  intros g x y Hfin.
  assert (Halive : forall w', In w' (worms (handleExplosion g x y)) ->
                              isDead w' = false ->
                              exists h', hp w' = Fin h' /\ 0 < h').
  { simpl. intros w' Hin Hlive. apply in_map_iff in Hin.
    destruct Hin as (w & <- & Hin).
    destruct (proj1 (Forall_forall _ _) Hfin w Hin) as (h & Hh).
    destruct (damageWorm_alive_positive x y w h Hh) as (h' & Hh' & Hpos).
    exists h'. split; [exact Hh' | apply Hpos, Hlive]. }
  split; [exact Halive|].
  intros team. unfold teamHp. apply sum_of_positive_health; [|lra].
  intros w Hin. unfold aliveOf in Hin. apply filter_In in Hin.
  destruct Hin as [Hin Hkeep]. apply andb_prop in Hkeep.
  destruct Hkeep as [_ Hlive]. apply negb_true_iff in Hlive.
  apply Halive; assumption.
Qed.

Lemma X7_team_totals_are_never_negative_witness :
  (forall w', In w' (worms (handleExplosion flatGame (-40) (-1))) ->
              isDead w' = false ->
              exists h', hp w' = Fin h' /\ 0 < h')
  /\ forall team,
       exists s, teamHp team (worms (handleExplosion flatGame (-40) (-1)))
                 = Fin s
                 /\ 0 <= s.
Proof.
  apply (X7_team_totals_are_never_negative flatGame (-40) (-1)).
  repeat constructor; eexists; reflexivity.
Defined.

(** ** More on the terrain *)

(** A call with a radius that is not positive carves nothing. *)
Lemma carve_nothing (x radius : R) (heights : list R) (i : Z) :
  radius <= 0 -> carve x radius heights i = heights.
Proof.
  intros Hr. unfold carve.
  destruct (_ && _); [|reflexivity].
  destruct (Rlt_dec _ radius) as [Hlt | _]; [|reflexivity].
  match type of Hlt with Rabs ?a < _ => pose proof (Rabs_pos a) end. lra.
Qed.

(** X8. A [deformTerrain] call whose radius is zero or negative leaves the
    whole height map as it was, whatever the centre. *)
Theorem X8_deform_nonpositive_radius_is_noop :
  forall (ready : bool) (heights : list R) (x radius : R),
    radius <= 0 -> deformTerrain ready heights x radius = heights.
Proof.
  intros ready heights x radius Hr. unfold deformTerrain.
  destruct ready; simpl; [|reflexivity].
  generalize (indexRange
                (Zfloor ((x + TERRAIN_WIDTH / 2) / TERRAIN_WIDTH
                         * IZR TERRAIN_SEGMENTS)
                 - Zfloor (radius / TERRAIN_WIDTH * IZR TERRAIN_SEGMENTS * 2))
                (Zfloor ((x + TERRAIN_WIDTH / 2) / TERRAIN_WIDTH
                         * IZR TERRAIN_SEGMENTS)
                 + Zfloor (radius / TERRAIN_WIDTH * IZR TERRAIN_SEGMENTS * 2))).
  intros indices. induction indices as [|i rest IH]; simpl; [reflexivity|].
  rewrite carve_nothing by exact Hr. exact IH.
Qed.

Lemma X8_deform_nonpositive_radius_is_noop_witness :
  deformTerrain true rampTerrain 0 (-6) = rampTerrain.
Proof.
  apply (X8_deform_nonpositive_radius_is_noop true rampTerrain 0 (-6)). lra.
Defined.

(** ** The lookup on any number *)




(** ** The starting terrain *)

Lemma indexRange_nth (lo hi : Z) (j : nat) :
  (j < Z.to_nat (hi - lo + 1))%nat ->
  nth_error (indexRange lo hi) j = Some (lo + Z.of_nat j)%Z.
Proof.
  intros Hj. unfold indexRange. rewrite nth_error_map, nth_error_seq.
  destruct (Nat.ltb_spec j (Z.to_nat (hi - lo + 1))); [reflexivity | lia].
Qed.

(** Inside the mesh the starting height is the sum of three waves, cut off
    below at -15. *)
Lemma getTerrainHeight_bounds (count : Z) (x : R) :
  getTerrainHeight count x = -50
  \/ -15 <= getTerrainHeight count x <= 30.
Proof.
  unfold getTerrainHeight. cbv zeta.
  destruct (_ || _)%bool; [left; reflexivity | right].
  pose proof (SIN_bound (x * (5/100))).
  pose proof (SIN_bound (x * (1/10))).
  pose proof (COS_bound (x * (2/100))).
  split; [apply Rmax_r|]. apply Rmax_lub; lra.
Qed.

(** X14. The starting terrain: for a mesh of more than 200 vertices the
    stored height map has 201 samples, each between -15 and 30; outside the
    mesh, that is left of x = -100 or from x = count - 100 on,
    [getTerrainHeight] answers -50. *)
Theorem X14_initial_terrain_bounds :
  forall count : Z,
    (200 < count)%Z ->
    List.length (initialTerrainHeights count) = 201%nat
    /\ (forall j, (j <= 200)%nat ->
                  -15 <= nth j (initialTerrainHeights count) 0 <= 30)
    /\ (forall x, x < -100 -> getTerrainHeight count x = -50)
    /\ (forall x, IZR count - 100 <= x -> getTerrainHeight count x = -50).
Proof.
  intros count Hcount. split; [|split; [|split]].
  - unfold initialTerrainHeights, indexRange.
    rewrite !length_map, length_seq. reflexivity.
  - intros j Hj. unfold initialTerrainHeights.
    assert (Hnth : nth_error (indexRange 0 TERRAIN_SEGMENTS) j
                   = Some (Z.of_nat j)).
    { rewrite indexRange_nth by (unfold TERRAIN_SEGMENTS; simpl; lia).
      reflexivity. }
    rewrite (nth_error_nth _ _ 0
               (map_nth_error _ _ _ Hnth)).
    unfold getTerrainHeight. cbv zeta.
    replace ((IZR (Z.of_nat j) / IZR TERRAIN_SEGMENTS * TERRAIN_WIDTH
              - TERRAIN_WIDTH / 2 + TERRAIN_WIDTH / 2) / TERRAIN_WIDTH
             * IZR TERRAIN_SEGMENTS)
      with (IZR (Z.of_nat j))
      by (unfold TERRAIN_WIDTH, TERRAIN_SEGMENTS; lra).
    rewrite ZfloorZ.
    replace ((Z.of_nat j <? 0)%Z || (count <=? Z.of_nat j)%Z)%bool with false.
    + match goal with |- _ <= Rmax ?a _ <= _ =>
        pose proof (SIN_bound ((IZR (Z.of_nat j) / IZR TERRAIN_SEGMENTS
                                * TERRAIN_WIDTH - TERRAIN_WIDTH / 2)
                               * (5/100)));
        pose proof (SIN_bound ((IZR (Z.of_nat j) / IZR TERRAIN_SEGMENTS
                                * TERRAIN_WIDTH - TERRAIN_WIDTH / 2)
                               * (1/10)));
        pose proof (COS_bound ((IZR (Z.of_nat j) / IZR TERRAIN_SEGMENTS
                                * TERRAIN_WIDTH - TERRAIN_WIDTH / 2)
                               * (2/100)))
      end.
      split; [apply Rmax_r|]. apply Rmax_lub; lra.
    + symmetry. apply orb_false_intro; [apply Z.ltb_ge | apply Z.leb_gt]; lia.
  - intros x Hx. unfold getTerrainHeight. cbv zeta. rewrite sample_index.
    assert (Zfloor (x + 100) < 0)%Z.
    { pose proof (Zfloor_bound (x + 100)) as [Hlo _]. apply lt_IZR. lra. }
    replace (Zfloor (x + 100) <? 0)%Z with true
      by (symmetry; apply Z.ltb_lt; assumption).
    reflexivity.
  - intros x Hx. unfold getTerrainHeight. cbv zeta. rewrite sample_index.
    assert (count <= Zfloor (x + 100))%Z by (apply Zfloor_lub; lra).
    replace (count <=? Zfloor (x + 100))%Z with true
      by (symmetry; apply Z.leb_le; assumption).
    rewrite orb_true_r. reflexivity.
Qed.

Lemma X14_initial_terrain_bounds_witness :
  List.length (initialTerrainHeights 2211) = 201%nat
  /\ (forall j, (j <= 200)%nat ->
                -15 <= nth j (initialTerrainHeights 2211) 0 <= 30)
  /\ (forall x, x < -100 -> getTerrainHeight 2211 x = -50)
  /\ (forall x, IZR 2211 - 100 <= x -> getTerrainHeight 2211 x = -50).
Proof.
  apply (X14_initial_terrain_bounds 2211). lia.
Defined.

(** ** The input block on the active worm *)



(** Aiming touches the aim angle only. *)
Lemma aimWorm_frame (keys : Keys) (w : Worm) :
  id (aimWorm keys w) = id w
  /\ teamId (aimWorm keys w) = teamId w
  /\ name (aimWorm keys w) = name w
  /\ hp (aimWorm keys w) = hp w
  /\ isDead (aimWorm keys w) = isDead w
  /\ rotation (aimWorm keys w) = rotation w
  /\ position (aimWorm keys w) = position w.
Proof.
  unfold aimWorm.
  destruct (ArrowUp keys), (ArrowDown keys); cbv zeta;
    repeat match goal with
           | |- context [lt ?a ?b] => destruct (lt a b)
           end;
    destruct w; repeat split; reflexivity.
Qed.

(** X15. The aim keys keep the aim angle inside its range: from a finite
    angle between -PI/2 and PI/1.5, one frame of the aim keys gives an angle
    in the same range, at most 0.02 away. *)
Theorem X15_aim_stays_in_range :
  forall (keys : Keys) (w : Worm) (a : R),
    aimAngle w = Fin a ->
    - PI / 2 <= a <= PI / (15/10) ->
    exists a',
      aimAngle (aimWorm keys w) = Fin a'
      /\ - PI / 2 <= a' <= PI / (15/10)
      /\ Rabs (a' - a) <= 2/100.
Proof.
  intros keys [i t nm hp0 pos rot aim dead] a. simpl. intros -> Hin.
  pose proof PI_RGT_0 as Hpi.
  assert (Hup : PI / (15/10) = PI * (10/15)) by (field; lra).
  rewrite Hup in *.
  unfold aimWorm. rewrite Hup.
  destruct keys as [left right [|] [|] space]; simpl.
  - destruct (Rlt_dec (PI * (10 / 15)) (a + 2 / 100)); simpl;
      match goal with |- context [Rlt_dec ?u ?v] => destruct (Rlt_dec u v) end;
      simpl; eexists; (split; [reflexivity|]);
      (split; [lra | apply Rabs_le; lra]).
  - destruct (Rlt_dec (PI * (10 / 15)) (a + 2 / 100)); simpl;
      eexists; (split; [reflexivity|]);
      (split; [lra | apply Rabs_le; lra]).
  - destruct (Rlt_dec (a + - (2 / 100)) (- PI / 2)); simpl;
      eexists; (split; [reflexivity|]);
      (split; [lra | apply Rabs_le; lra]).
  - eexists; (split; [reflexivity|]); (split; [lra | apply Rabs_le; lra]).
Qed.

Lemma X15_aim_stays_in_range_witness :
  exists a',
    aimAngle (aimWorm (mkKeys false false true false false) deadHans)
    = Fin a'
    /\ - PI / 2 <= a' <= PI / (15/10)
    /\ Rabs (a' - 5/10) <= 2/100.
Proof.
  apply (X15_aim_stays_in_range (mkKeys false false true false false)
           deadHans (5/10)).
  - reflexivity.
  - pose proof PI_RGT_0. pose proof PI2_3_2.
    assert (PI / (15/10) = PI * (10/15)) as -> by (field; lra).
    unfold PI2 in *. lra.
Defined.



(** ** Charging a shot *)

Lemma chargeBlock_keeps_start (t : R) (c : Charge) :
  charging c = true -> fst (chargeBlock t true c) = c.
Proof. intros Hc. unfold chargeBlock. rewrite Hc. reflexivity. Qed.

Lemma chargeBlock_starts (t : R) (c : Charge) :
  charging c = false -> fst (chargeBlock t true c) = mkCharge true t.
Proof. intros Hc. unfold chargeBlock. rewrite Hc. reflexivity. Qed.

Lemma holdSpace_while_charging (times : list R) :
  forall c : Charge, charging c = true -> holdSpace times c = c.
Proof.
  unfold holdSpace.
  induction times as [|t rest IH]; intros c Hc; cbn [fold_left].
  - reflexivity.
  - rewrite chargeBlock_keeps_start by exact Hc. apply IH. exact Hc.
Qed.

(** X17. The power of a shot: when the space key goes down on the frame at
    time [t0] while no charge is running, is held over any further frames
    and is released on the frame at time [t], the shot is fired with power
    [min ((t - t0) / 1000 * 20, MAX_POWER)] and the charge is over.  For
    [t >= t0] that power lies between 0 and [MAX_POWER] (30), and it is
    [MAX_POWER] once the key was held for 1.5 seconds. *)
Theorem X17_shot_power_from_hold_time :
  forall (t0 t : R) (frames : list R) (c : Charge),
    charging c = false ->
    let finalPower := Rmin ((t - t0) / 1000 * 20) MAX_POWER in
    chargeBlock t false (holdSpace (t0 :: frames) c)
    = (mkCharge false t0, Fired finalPower)
    /\ (t0 <= t -> 0 <= finalPower <= MAX_POWER)
    /\ (1500 <= t - t0 -> finalPower = MAX_POWER).
Proof.
  intros t0 t frames c Hc finalPower.
  assert (Hheld : holdSpace (t0 :: frames) c = mkCharge true t0).
  { unfold holdSpace. cbn [fold_left].
    rewrite chargeBlock_starts by exact Hc.
    apply (holdSpace_while_charging frames (mkCharge true t0)).
    reflexivity. }
  rewrite Hheld. split; [reflexivity|].
  unfold finalPower, MAX_POWER. split.
  - intros Ht. split.
    + apply Rmin_glb; lra.
    + apply Rmin_r.
  - intros Hlong. apply Rmin_right. lra.
Qed.

Lemma X17_shot_power_from_hold_time_witness :
  let finalPower := Rmin ((1750 - 1000) / 1000 * 20) MAX_POWER in
  chargeBlock 1750 false
    (holdSpace [1000; 1016; 1033] (mkCharge false 0))
  = (mkCharge false 1000, Fired finalPower)
  /\ (1000 <= 1750 -> 0 <= finalPower <= MAX_POWER)
  /\ (1500 <= 1750 - 1000 -> finalPower = MAX_POWER).
Proof.
  apply (X17_shot_power_from_hold_time 1000 1750 [1016; 1033]
           (mkCharge false 0)).
  reflexivity.
Defined.

(** ** Firing *)

(** X18. The launch: a worm with finite position and aim angle [a] fires
    from its own x, 2 units above its y, with a velocity of magnitude
    [powerLvl]: the vertical part is [sin a * powerLvl], the horizontal part
    [cos a * powerLvl] when the worm faces right (rotation 0) and
    [- cos a * powerLvl] otherwise.  Facing right with the aim raised
    beyond the vertical (between PI/2 and the upper limit PI/1.5) and a
    positive power, the shell flies to the left. *)
Theorem X18_launch_velocity :
  forall (powerLvl : R) (w : Worm) (wx wy a : R),
    Position.x (position w) = Fin wx ->
    Position.y (position w) = Fin wy ->
    aimAngle w = Fin a ->
    exists vx vy,
      launch powerLvl w
      = Projectile.mk (Position.mk (Fin wx) (Fin (wy + 2)) (Fin 0))
          (Position.mk (Fin vx) (Fin vy) (Fin 0)) true
      /\ vx * vx + vy * vy = powerLvl * powerLvl
      /\ vy = Rtrigo_def.sin a * powerLvl
      /\ (rotation w = Fin 0 -> vx = Rtrigo_def.cos a * powerLvl)
      /\ (Math.strictEq (rotation w) (Fin 0) = false ->
          vx = - Rtrigo_def.cos a * powerLvl)
      /\ (rotation w = Fin 0 -> PI / 2 < a <= PI / (15/10) ->
          0 < powerLvl -> vx < 0).
Proof.
  intros powerLvl [i t nm hp0 [px py pz] rot aim dead] wx wy a.
  simpl. intros -> -> ->.
  pose proof (sin2_cos2 a) as Hunit. unfold Rsqr in Hunit.
  unfold launch. simpl.
  destruct (Math.strictEq rot (Fin 0)) eqn:Hface.
  - exists (Rtrigo_def.cos a * powerLvl), (Rtrigo_def.sin a * powerLvl).
    split; [reflexivity|]. split; [nra|]. split; [reflexivity|].
    split; [reflexivity|]. split; [discriminate|].
    intros _ [Ha1 Ha2] Hp.
    assert (Rtrigo_def.cos a < 0).
    { apply cos_lt_0; [exact Ha1|].
      pose proof PI_RGT_0.
      assert (PI / (15/10) = PI * (10/15)) as Hup by (field; lra).
      rewrite Hup in Ha2. lra. }
    nra.
  - exists (- Rtrigo_def.cos a * powerLvl), (Rtrigo_def.sin a * powerLvl).
    split; [reflexivity|]. split; [nra|]. split; [reflexivity|].
    split; [|split].
    + intros ->. simpl in Hface.
      destruct (Req_dec_T 0 0); [discriminate | lra].
    + reflexivity.
    + intros ->. simpl in Hface.
      destruct (Req_dec_T 0 0); [discriminate | lra].
Qed.

Lemma X18_launch_velocity_witness :
  exists vx vy,
    launch 20 fritzAtEdge
    = Projectile.mk (Position.mk (Fin (999/10)) (Fin (0 + 2)) (Fin 0))
        (Position.mk (Fin vx) (Fin vy) (Fin 0)) true
    /\ vx * vx + vy * vy = 20 * 20
    /\ vy = Rtrigo_def.sin (5/10) * 20
    /\ (rotation fritzAtEdge = Fin 0 -> vx = Rtrigo_def.cos (5/10) * 20)
    /\ (Math.strictEq (rotation fritzAtEdge) (Fin 0) = false ->
        vx = - Rtrigo_def.cos (5/10) * 20)
    /\ (rotation fritzAtEdge = Fin 0 -> PI / 2 < 5/10 <= PI / (15/10) ->
        0 < 20 -> vx < 0).
Proof.
  apply (X18_launch_velocity 20 fritzAtEdge (999/10) 0 (5/10));
    reflexivity.
Defined.

(** ** The flight of the projectile *)

(** A projectile with finite position and velocity after [n] frames: the
    velocity changes linearly, the position quadratically. *)
Lemma flight_closed_form (wind px py vx vy : R) (pz vz : number)
  (act : bool) (n : nat) :
  flight wind n
    (Projectile.mk (Position.mk (Fin px) (Fin py) pz)
       (Position.mk (Fin vx) (Fin vy) vz) act)
  = Projectile.mk
      (Position.mk
         (Fin (px + 5 * dt * (INR n * vx
                              + wind * dt * (INR n * (INR n + 1) / 2))))
         (Fin (py + 5 * dt * (INR n * vy
                              - 98/10 * dt * (INR n * (INR n + 1) / 2))))
         pz)
      (Position.mk (Fin (vx + wind * dt * INR n))
         (Fin (vy - 98/10 * dt * INR n)) vz)
      act.
Proof.
  induction n as [|n IH].
  - simpl. do 3 f_equal; lra.
  - cbn [flight]. rewrite IH. rewrite S_INR.
    unfold integrate. simpl. unfold dt.
    do 3 f_equal; lra.
Qed.

(** X19. Ballistics: for a projectile with finite position and velocity,
    after [n] frames the horizontal velocity is the launch value plus
    [wind * dt * n] and the vertical velocity the launch value minus
    [9.8 * dt * n] (with [dt] = 0.016); and whatever the launch, the wind
    and the terrain, the collision test fires after finitely many frames
    (at the latest once the shell is below the water level): a shot cannot
    stay in the air forever. *)
Theorem X19_flight_velocity_and_landing :
  forall (wind px py vx vy : R) (pz vz : number) (act : bool)
         (heights : list R),
    let p := Projectile.mk (Position.mk (Fin px) (Fin py) pz)
               (Position.mk (Fin vx) (Fin vy) vz) act in
    (forall n,
       Projectile.velocity (flight wind n p)
       = Position.mk (Fin (vx + wind * dt * INR n))
           (Fin (vy - 98/10 * dt * INR n)) vz)
    /\ exists n, hitsGround heights (flight wind n p) = true.
Proof.
  intros wind px py vx vy pz vz act heights p. split.
  - intros n. unfold p. rewrite flight_closed_form. reflexivity.
  - set (M := 2 * (Rabs vy + 1) / (98/10 * dt)
              + (Rabs py + 10) / (5 * dt)).
    assert (HM : 0 <= M).
    { unfold M, dt. pose proof (Rabs_pos vy). pose proof (Rabs_pos py).
      apply Rplus_le_le_0_compat; apply Rmult_le_pos;
        try lra; left; apply Rinv_0_lt_compat; lra. }
    pose proof (archimed M) as [Hup _].
    assert (Hpos : (0 < up M)%Z) by (apply lt_IZR; lra).
    exists (Z.to_nat (up M)).
    unfold p. rewrite flight_closed_form.
    rewrite INR_IZR_INZ, Z2Nat.id by lia.
    set (N := IZR (up M)) in *.
    unfold hitsGround. simpl Position.y. simpl Projectile.position.
    apply orb_true_intro. right. unfold WATER_LEVEL. simpl.
    match goal with |- (if Rlt_dec ?a ?b then _ else _) = _ =>
      destruct (Rlt_dec a b) as [_ | Hno]; [reflexivity | exfalso; apply Hno]
    end.
    assert (H1 : 2 * (Rabs vy + 1) / (98/10 * dt) < N).
    { unfold M in Hup. pose proof (Rabs_pos py).
      assert (0 <= (Rabs py + 10) / (5 * dt)).
      { unfold dt. apply Rmult_le_pos; [lra|].
        left. apply Rinv_0_lt_compat. lra. }
      lra. }
    assert (H2 : (Rabs py + 10) / (5 * dt) < N).
    { unfold M in Hup. pose proof (Rabs_pos vy).
      assert (0 <= 2 * (Rabs vy + 1) / (98/10 * dt)).
      { unfold dt. apply Rmult_le_pos; [lra|].
        left. apply Rinv_0_lt_compat. lra. }
      lra. }
    assert (G1 : 2 * (Rabs vy + 1) < 98/10 * dt * N).
    { apply (Rmult_lt_compat_r (98/10 * dt)) in H1; [|unfold dt; lra].
      replace (2 * (Rabs vy + 1) / (98/10 * dt) * (98/10 * dt))
        with (2 * (Rabs vy + 1)) in H1 by (unfold dt; field).
      lra. }
    assert (G2 : Rabs py + 10 < 5 * dt * N).
    { apply (Rmult_lt_compat_r (5 * dt)) in H2; [|unfold dt; lra].
      replace ((Rabs py + 10) / (5 * dt) * (5 * dt))
        with (Rabs py + 10) in H2 by (unfold dt; field).
      lra. }
    pose proof (Rle_abs vy). pose proof (Rle_abs py).
    assert (HN : 0 < N) by lra.
    assert (Hfall : N * vy - 98/10 * dt * (N * (N + 1) / 2) <= - N).
    { unfold dt in *.
      replace (N * vy - 98/10 * (16/1000) * (N * (N + 1) / 2))
        with (N * (vy - 98/10 * (16/1000) * (N + 1) / 2)) by field.
      assert (vy - 98/10 * (16/1000) * (N + 1) / 2 <= -1) by lra.
      nra. }
    unfold dt in *. nra.
Qed.

(** A projectile whose position is NaN in x and y keeps it, frame after
    frame. *)
Lemma flight_NaN (wind : R) (n : nat) :
  forall (pz : number) (v : Position.t) (act : bool),
    exists v',
      flight wind n (Projectile.mk (Position.mk NaN NaN pz) v act)
      = Projectile.mk (Position.mk NaN NaN pz) v' act.
Proof.
  induction n as [|n IH]; intros pz v act.
  - exists v. reflexivity.
  - destruct (IH pz v act) as (v' & Hv'). cbn [flight]. rewrite Hv'.
    eexists. unfold integrate. simpl. reflexivity.
Qed.

(** X20. A shot that never ends: when a worm whose x-position is NaN (what a
    hit exactly on the worm leaves behind) takes its turn, the input block
    finds no terrain height for it, the projectile it fires starts at a NaN
    position, and on no later frame does the collision test or the bounds
    test fire: neither [handleExplosion] nor [nextTurn] is ever called for
    that shot. *)
Theorem X20_shot_from_NaN_worm_never_lands :
  forall (w : Worm) (keys : Keys) (heights terrain : list R)
         (powerLvl wind : R) (n : nat),
    Position.x (position w) = NaN ->
    let p := launch powerLvl (inputWorm keys heights w) in
    hitsGround terrain (flight wind n p) = false
    /\ outOfBounds (flight wind n p) = false.
Proof.
  intros w keys heights terrain powerLvl wind n Hx p.
  assert (Hmove : Position.x (position (moveWorm keys w)) = NaN).
  { destruct w as [i t nm hp0 [px py pz] rot aim dead]. simpl in Hx. subst.
    unfold moveWorm. destruct keys as [[|] [|] up down space]; reflexivity. }
  destruct (aimWorm_frame keys (moveWorm keys w))
    as (_ & _ & _ & _ & _ & _ & Apos).
  assert (Hp : exists v,
             p = Projectile.mk (Position.mk NaN NaN (Fin 0)) v true).
  { unfold p, launch, inputWorm, snapToTerrain, setY. simpl.
    rewrite Apos, Hmove. eexists. reflexivity. }
  destruct Hp as (v & ->).
  destruct (flight_NaN wind n (Fin 0) v true) as (v' & ->).
  split; reflexivity.
Qed.

Lemma X20_shot_from_NaN_worm_never_lands_witness :
  let w := mkWorm 1 1 "Hans" (Fin 60) (Position.mk NaN (Fin 0) (Fin 0))
             (Fin 0) (Fin (5/10)) false in
  let p := launch 20
             (inputWorm (mkKeys false false false false false)
                (flatTerrain 0) w) in
  hitsGround (flatTerrain 0) (flight (1/10) 500 p) = false
  /\ outOfBounds (flight (1/10) 500 p) = false.
Proof.
  apply (X20_shot_from_NaN_worm_never_lands
           (mkWorm 1 1 "Hans" (Fin 60) (Position.mk NaN (Fin 0) (Fin 0))
              (Fin 0) (Fin (5/10)) false)
           (mkKeys false false false false false) (flatTerrain 0)
           (flatTerrain 0) 20 (1/10) 500).
  reflexivity.
Defined.

(** ** The crater in floating-point arithmetic *)

(** X9. One [deformTerrain] call with a radius of at most 10, computed in
    binary64 with the heights stored as binary32, lowers a sample of a full
    field (height between -1000 and 1000) by no more than the radius plus
    1/5000, and leaves it no more than 1/5000 above where it was. *)
Theorem X9_crater_depth_is_bounded :
  forall (fl fl32 : R -> R) (heights : list R) (cx r : R) (j : nat),
    binary64 fl -> binary32 fl32 ->
    List.length heights = 201%nat -> (j <= 200)%nat ->
    -111 <= cx <= 111 -> 0 <= r <= 10 ->
    -1000 <= nth j heights 0 <= 1000 ->
    nth j heights 0 - r - 1 / 5000
    <= nth j (deformTerrainFl fl fl32 true heights cx r) 0
    <= nth j heights 0 + 1 / 5000.
Proof.
  intros fl fl32 heights cx r j Hfl Hfl32 Hlen Hj Hcx Hr Hh.
  rewrite deformTerrainFl_sample by (unfold TERRAIN_SEGMENTS; lia).
  destruct (_ && _)%Z; [|lra].
  destruct (carvedFl_close fl fl32 Hfl Hfl32 cx r (nth j heights 0) j
              Hj Hcx Hr Hh) as [Hnum _].
  apply Rabs_between in Hnum.
  pose proof (craterDepth_bounds cx r j ltac:(lra)). lra.
Qed.

Lemma X9_crater_depth_is_bounded_witness :
  nth 100 (flatTerrain 0) 0 - 6 - 1 / 5000
  <= nth 100 (deformTerrainFl noRounding noRounding true (flatTerrain 0) 0 6) 0
  <= nth 100 (flatTerrain 0) 0 + 1 / 5000.
Proof.
  apply (X9_crater_depth_is_bounded noRounding noRounding (flatTerrain 0)
           0 6 100%nat);
    [exact noRounding_binary64 | exact noRounding_binary32
    | reflexivity | lia | lra | lra | simpl; lra].
Defined.

(** X12. The ground under an impact drops: where the lookup read the
    height [h] at [x] before [deformTerrain(x, r)], with [r] between 2 and
    10, it reads afterwards a height between [h - r] and
    [h - sqrt (r^2 - 1)], up to 1/5000 below and 1/2500 above: the sample
    the lookup reads is the centre index of the crater, at most one sample
    spacing (and a rounding error) away from [x]. *)
Theorem X12_ground_under_impact_drops :
  forall (fl fl32 : R -> R) (heights : list R) (x r h : R),
    binary64 fl -> binary32 fl32 ->
    List.length heights = 201%nat ->
    -100 <= x <= 100 -> 2 <= r <= 10 -> -1000 <= h <= 1000 ->
    getTerrainHeightAtFl fl heights x = Some h ->
    exists h',
      getTerrainHeightAtFl fl (deformTerrainFl fl fl32 true heights x r) x
      = Some h'
      /\ h - r - 1 / 5000 <= h'
      /\ h' <= h - R_sqrt.sqrt (r * r - 1) + 1 / 2500.
Proof.
  intros fl fl32 heights x r h Hfl Hfl32 Hlen Hx Hr Hh Hget.
  pose proof (index_value_close fl Hfl (x + 100) ltac:(lra)) as Hv.
  apply Rabs_between in Hv.
  pose proof (index_value_nonneg fl Hfl (x + 100) ltac:(lra)) as Hv0.
  set (v := fl (fl (fl (x + 100) / 200) * 200)) in *.
  pose proof (Zfloor_bound v) as [Hc1 Hc2].
  assert (Hc0 : (0 <= Zfloor v)%Z) by (apply Zfloor_lub; simpl; lra).
  assert (Hc200 : (Zfloor v <= 200)%Z).
  { apply Z.lt_succ_r. apply lt_IZR. simpl. lra. }
  set (vr := fl (fl (fl (r / 200) * 200) * 2)).
  assert (Hri : (0 <= Zfloor vr)%Z).
  { apply Zfloor_lub. simpl. unfold vr.
    apply (fl_nonneg _ _ _ fl Hfl).
    assert (0 <= fl (fl (r / 200) * 200)).
    { apply (fl_nonneg _ _ _ fl Hfl).
      assert (0 <= fl (r / 200)) by (apply (fl_nonneg _ _ _ fl Hfl); lra).
      lra. }
    lra. }
  rewrite (getTerrainHeightAtFl_index fl) in Hget.
  rewrite (getTerrainHeightAtFl_index fl).
  fold v in Hget. fold v.
  set (c := Zfloor v) in *.
  assert (Hidx : Z.to_nat (Z.max 0 (Z.min TERRAIN_SEGMENTS c)) = Z.to_nat c)
    by (unfold TERRAIN_SEGMENTS; f_equal; lia).
  rewrite Hidx in *.
  assert (Hj : (Z.to_nat c <= 200)%nat) by lia.
  assert (Hnth : nth (Z.to_nat c) heights 0 = h)
    by (apply nth_error_nth; exact Hget).
  assert (Hafter :
    nth (Z.to_nat c) (deformTerrainFl fl fl32 true heights x r) 0
    = carvedFl fl fl32 x r (Z.to_nat c) h).
  { rewrite deformTerrainFl_sample by (unfold TERRAIN_SEGMENTS; lia).
    fold v vr c. rewrite Z2Nat.id by lia. rewrite Hnth.
    replace ((c - Zfloor vr <=? c) && (c <=? c + Zfloor vr))%Z with true;
      [reflexivity|].
    symmetry. apply andb_true_intro. split; apply Z.leb_le; lia. }
  exists (carvedFl fl fl32 x r (Z.to_nat c) h).
  split.
  - rewrite <- Hafter. apply nth_error_nth'.
    rewrite deformTerrainFl_length. lia.
  - destruct (carvedFl_close fl fl32 Hfl Hfl32 x r h (Z.to_nat c)
                Hj ltac:(lra) ltac:(lra) Hh) as [Hnum _].
    apply Rabs_between in Hnum.
    pose proof (craterDepth_bounds x r (Z.to_nat c) ltac:(lra)) as Hcd.
    split; [lra|].
    assert (Hdeep : R_sqrt.sqrt (r * r - 1) - 1 / 5000
                    <= craterDepth x r (Z.to_nat c)).
    { rewrite craterDepth_sqrt by lra.
      rewrite worldX_shift, Z2Nat.id by lia.
      set (d := Rabs (IZR c - 100 - x)).
      assert (Hd : 0 <= d <= 1 + 1 / 1000000000000).
      { unfold d. split; [apply Rabs_pos|]. apply Rabs_le. lra. }
      destruct (Rle_dec d 1) as [Hle | Hgt].
      - assert (R_sqrt.sqrt (r * r - 1) <= R_sqrt.sqrt (r * r - d * d)).
        { apply sqrt_le_1_alt. assert (d * d <= 1) by nra. lra. }
        lra.
      - pose proof (sqrt_close (r * r - d * d) (r * r - 1) (1 / 5000)
                      ltac:(lra)) as Hs.
        assert (Hsq : 0 <= d * d - 1 <= 3 / 1000000000000).
        { replace (d * d - 1) with ((d - 1) * (d + 1)) by ring.
          split; [apply Rmult_le_pos; lra|].
          assert ((d - 1) * (d + 1) <= 1 / 1000000000000 * (d + 1))
            by (apply Rmult_le_compat_r; lra).
          lra. }
        specialize (Hs ltac:(apply Rabs_le; lra)).
        apply Rabs_between in Hs. lra. }
    lra.
Qed.

Lemma X12_ground_under_impact_drops_witness :
  exists h',
    getTerrainHeightAtFl noRounding
      (deformTerrainFl noRounding noRounding true (flatTerrain 0) 0 6) 0
    = Some h'
    /\ 0 - 6 - 1 / 5000 <= h'
    /\ h' <= 0 - R_sqrt.sqrt (6 * 6 - 1) + 1 / 2500.
Proof.
  apply (X12_ground_under_impact_drops noRounding noRounding
           (flatTerrain 0) 0 6 0);
    [exact noRounding_binary64 | exact noRounding_binary32
    | reflexivity | lra | lra | lra |].
  rewrite getTerrainHeightAtFl_noRounding, getTerrainHeightAt_index.
  replace (0 + 100) with 100 by lra.
  rewrite (Zfloor_eq 100) by (simpl; lra).
  reflexivity.
Defined.
